(** * Arena: a bump allocator over one mmap'ed region (arena.h, str.h)

    Shallow embedding of the allocator of [arena.h] and of the
    length-prefixed string of [str.h], for an LP64 POSIX target
    (64-bit [size_t], 64-bit pointers, little-endian).

    C objects are kept in an explicit machine state: the [Arena] headers
    live in a finite map keyed by their address, the mapped data bytes in a
    second finite map keyed by address.  Dereferencing an address that is
    not mapped has no defined result; the embedding returns [None] there. *)

From stdpp Require Import base option list gmap fin_maps.
From Stdlib Require Import ZArith Lia String Ascii.

Local Open Scope Z_scope.

(** ** Machine arithmetic *)

(** Addresses are 64-bit unsigned values. *)
Abbreviation ptr := Z (only parsing).

Definition NULL : ptr := 0.

Definition SIZE_MAX : Z := 2 ^ 64 - 1.

(** Reduction modulo [2^64]: the value of an unsigned 64-bit expression. *)
Definition wrap64 (z : Z) : Z := z mod 2 ^ 64.

(** A value representable in [uint64_t] (and in [size_t]). *)
Definition is_u64 (z : Z) : Prop := 0 <= z < 2 ^ 64.

(** ** arena.h: the data model *)

(** [struct Arena]: [base] points to the first usable byte, [size] is the
    usable capacity, [pos] the offset of the first byte not handed out. *)
Record Arena := mkArena {
  base : ptr;
  size : Z;
  pos : Z
}.

(** [sizeof(Arena)]: one pointer and two [uint64_t]. *)
Definition sizeof_Arena : Z := 24.

(** [struct ArenaScratch], named [ArenaTemp]. *)
Record ArenaTemp := mkArenaTemp {
  temp_arena : ptr;
  temp_pos : Z
}.

(** Calls made to the operating system, in the order they were made. *)
Inductive oscall :=
| Sysconf
| Mmap (len : Z).

(** The machine state. *)
Record State := mkState {
  hdr : gmap Z Arena;     (* the Arena headers, by address *)
  data : gmap Z Z;        (* the mapped data bytes, by address *)
  oslog : list oscall     (* operating-system calls, most recent first *)
}.

Definition set_hdr (h : gmap Z Arena) (s : State) : State :=
  mkState h (data s) (oslog s).

Definition set_data (d : gmap Z Z) (s : State) : State :=
  mkState (hdr s) d (oslog s).

Definition log_call (c : oscall) (s : State) : State :=
  mkState (hdr s) (data s) (c :: oslog s).

(** ** A state monad with undefined behaviour *)

Definition M (A : Type) : Type := State -> option (A * State).

Definition ret {A} (x : A) : M A := fun s => Some (x, s).

Definition bind {A B} (m : M A) (f : A -> M B) : M B :=
  fun s => match m s with
           | Some (x, s') => f x s'
           | None => None
           end.

Definition undefined {A} : M A := fun _ => None.

Declare Scope arena_scope.
Delimit Scope arena_scope with arena.

Notation "'let*' x ':=' m 'in' k" := (bind m (fun x => k))
  (at level 10, x name, m at level 100, k at level 200) : arena_scope.
Notation "m ';;' k" := (bind m (fun _ => k))
  (at level 100, k at level 200, right associativity) : arena_scope.

Local Open Scope arena_scope.

(** *** Primitive accesses *)

(** Reads the header at [a]; undefined when [a] is no live arena. *)
Definition load_arena (a : ptr) : M Arena :=
  fun s => match hdr s !! a with
           | Some A => Some (A, s)
           | None => None
           end.

(** The header [A] with its [pos] field set to [v]. *)
Definition with_pos (A : Arena) (v : Z) : Arena :=
  mkArena (base A) (size A) v.

(** The state in which the header at [a] is [A]. *)
Definition put_arena (a : ptr) (A : Arena) (s : State) : State :=
  set_hdr (<[a := A]> (hdr s)) s.

(** [arena->pos = v]. *)
Definition store_pos (a : ptr) (v : Z) : M unit :=
  fun s => match hdr s !! a with
           | Some A => Some (tt, put_arena a (with_pos A v) s)
           | None => None
           end.

Definition load_byte (p : ptr) : M Z :=
  fun s => match data s !! p with
           | Some b => Some (b, s)
           | None => None
           end.

(** Writes one byte; undefined outside the mapped memory. *)
Definition store_byte (p : ptr) (b : Z) : M unit :=
  fun s => match data s !! p with
           | Some _ => Some (tt, set_data (<[p := b]> (data s)) s)
           | None => None
           end.

(** Writes the bytes of [bs] at [p], [p+1], ... *)
Fixpoint store_bytes (p : ptr) (bs : list Z) : M unit :=
  match bs with
  | [] => ret tt
  | b :: bs' => store_byte p b;; store_bytes (p + 1) bs'
  end.

(** Reads [n] bytes from [p] on. *)
Fixpoint load_bytes (p : ptr) (n : nat) : M (list Z) :=
  match n with
  | O => ret []
  | S n' => let* b := load_byte p in
            let* bs := load_bytes (p + 1) n' in
            ret (b :: bs)
  end.

(** [memset(p, c, n)]. *)
Definition memset (p : ptr) (c : Z) (n : Z) : M unit :=
  store_bytes p (replicate (Z.to_nat n) (c mod 256)).

(** [memcpy(p, src, n)], the source given by its bytes. *)
Definition memcpy (p : ptr) (src : list Z) (n : Z) : M unit :=
  store_bytes p (take (Z.to_nat n) src).

(** The [n] little-endian bytes of [v]. *)
Fixpoint le_bytes (n : nat) (v : Z) : list Z :=
  match n with
  | O => []
  | S n' => v mod 256 :: le_bytes n' (v / 256)
  end.

Fixpoint le_value (bs : list Z) : Z :=
  match bs with
  | [] => 0
  | b :: bs' => b + 256 * le_value bs'
  end.

Definition store_u64 (p : ptr) (v : Z) : M unit :=
  store_bytes p (le_bytes 8 v).

Definition load_u64 (p : ptr) : M Z :=
  let* bs := load_bytes p 8 in ret (le_value bs).

(** ** arena.h: the bump allocator *)

(** [ArenaPush]: the block is carved by advancing [pos]; the pointer
    returned is computed from [arena->base] and [arena->pos] as they are
    when the [return] statement runs. *)
Definition ArenaPush (arena : ptr) (sz : Z) : M ptr :=
  if (arena =? NULL) || (sz =? 0) then ret NULL
  else
    let* a := load_arena arena in
    let current := pos a in
    if wrap64 (pos a + sz) >? size a then ret NULL
    else
      store_pos arena (wrap64 (pos a + sz));;
      let* a' := load_arena arena in
      ret (wrap64 (base a' + pos a')).

(** [ArenaPushZeroInit]. *)
Definition ArenaPushZeroInit (arena : ptr) (sz : Z) : M ptr :=
  let* p := ArenaPush arena sz in
  if p =? 0 then ret NULL
  else memset p 0 sz;; ret p.

(** [ArenaPop]: status [0] or [-1]. *)
Definition ArenaPop (arena : ptr) (sz : Z) : M Z :=
  let* a := load_arena arena in
  if sz >? pos a then ret (-1)
  else
    store_pos arena (wrap64 (pos a - sz));;
    ret 0.

(** [ArenaSetPosBack]. *)
Definition ArenaSetPosBack (arena : ptr) (p : Z) : M Z :=
  let* a := load_arena arena in
  if p >? pos a then ret (-1)
  else
    store_pos arena p;;
    ret 0.

(** [ArenaClear]. *)
Definition ArenaClear (arena : ptr) : M unit :=
  store_pos arena 0.

Definition ArenaGetPos (arena : ptr) : M Z :=
  let* a := load_arena arena in ret (pos a).

Definition ArenaGetSize (arena : ptr) : M Z :=
  let* a := load_arena arena in ret (size a).

Definition ArenaGetBase (arena : ptr) : M ptr :=
  let* a := load_arena arena in ret (base a).

(** ** arena.h: scratch checkpoints *)

Definition ArenaScratchBegin (arena : ptr) : M ArenaTemp :=
  let* a := load_arena arena in ret (mkArenaTemp arena (pos a)).

Definition ArenaScratchEnd (temp : ArenaTemp) : M unit :=
  if temp_arena temp =? NULL then ret tt
  else store_pos (temp_arena temp) (temp_pos temp).

(** ** arena.h: reserving a region *)

(** The operating system as the allocator sees it: the page size that
    [sysconf(_SC_PAGESIZE)] reports (a [long], [-1] on error) and the
    outcome of an anonymous [mmap] of [len] bytes in the current state
    ([None] for [MAP_FAILED]). *)
Record OS := mkOS {
  os_pagesize : Z;
  os_mmap : State -> Z -> option ptr
}.

Definition sysconf_PAGESIZE (os : OS) : M Z :=
  fun s => Some (os_pagesize os, log_call Sysconf s).

Definition mmap (os : OS) (len : Z) : M (option ptr) :=
  fun s => Some (os_mmap os s len, log_call (Mmap len) s).

(** Fresh anonymous memory: [n] zero bytes from [p] on. *)
Fixpoint map_zero (p : ptr) (n : nat) (d : gmap Z Z) : gmap Z Z :=
  match n with
  | O => d
  | S n' => <[p := 0]> (map_zero (p + 1) n' d)
  end.

(** Installs the in-band header at [mem] and the usable bytes after it. *)
Definition install (mem : ptr) (total_size : Z) (A : Arena) : M unit :=
  fun s => Some (tt, mkState (<[mem := A]> (hdr s))
                             (map_zero (mem + sizeof_Arena)
                                       (Z.to_nat (total_size - sizeof_Arena))
                                       (data s))
                             (oslog s)).

(** [(size + sizeof(Arena) + page_size - 1) & ~(page_size - 1)], the sum in
    [uint64_t], the mask computed in [long] and converted. *)
Definition total_size_of (sz page_size : Z) : Z :=
  Z.land (wrap64 (sz + sizeof_Arena + page_size - 1))
         (wrap64 (Z.lnot (page_size - 1))).

(** [ArenaAlloc]. *)
Definition ArenaAlloc (os : OS) (sz : Z) : M ptr :=
  if (sz =? 0) || (sz >? SIZE_MAX - sizeof_Arena) then ret NULL
  else
    let* page_size := sysconf_PAGESIZE os in
    if page_size =? -1 then ret NULL
    else
      let total_size := total_size_of sz page_size in
      let* mem := mmap os total_size in
      match mem with
      | None => ret NULL
      | Some mem =>
          install mem total_size
            (mkArena (wrap64 (mem + sizeof_Arena))
                     (wrap64 (total_size - sizeof_Arena))
                     0);;
          ret mem
      end.

(** ** str.h: length-prefixed strings *)

(** [sizeof(Str)]: the [size_t] length field; the flexible array member
    adds nothing. *)
Definition sizeof_Str : Z := 8.

(** [strlen]: the number of bytes before the first zero byte.  A C string
    is given by the bytes found at its address; the terminator is the
    first zero among them, or sits right after them. *)
Fixpoint strlen (str : list Z) : Z :=
  match str with
  | [] => 0
  | c :: str' => if c =? 0 then 0 else 1 + strlen str'
  end.

(** [PushStr]; [inStr] is [None] for a null pointer. *)
Definition PushStr (arena : ptr) (inStr : option (list Z)) : M ptr :=
  match inStr with
  | None => ret NULL
  | Some str =>
      if arena =? NULL then ret NULL
      else
        let len := strlen str in
        if len =? SIZE_MAX then ret NULL
        else
          let* res := ArenaPush arena (wrap64 (sizeof_Str + len)) in
          if res =? NULL then ret NULL
          else
            store_u64 res len;;
            memcpy (wrap64 (res + sizeof_Str)) str len;;
            ret res
  end.

(** [PopStr]. *)
Definition PopStr (arena : ptr) (str : ptr) : M unit :=
  let* n := load_u64 str in
  ArenaPop arena (wrap64 (sizeof_Str + n));;
  ret tt.

(** Reading a record back: its length field and its payload. *)
Definition Str_size (str : ptr) : M Z := load_u64 str.

Definition Str_string (str : ptr) : M (list Z) :=
  let* n := load_u64 str in
  load_bytes (wrap64 (str + sizeof_Str)) (Z.to_nat n).

(** ** Sequences of allocator operations *)

Inductive op :=
| OpPush (arena : ptr) (sz : Z)
| OpPushZeroInit (arena : ptr) (sz : Z)
| OpPop (arena : ptr) (sz : Z)
| OpSetPosBack (arena : ptr) (p : Z)
| OpClear (arena : ptr)
| OpScratchBegin (arena : ptr)
| OpScratchEnd (k : nat).

(** One operation.  The checkpoints taken so far are kept in [ts];
    [OpScratchEnd k] ends the [k]-th of them. *)
Definition run_op (o : op) (ts : list ArenaTemp) : M (list ArenaTemp) :=
  match o with
  | OpPush a sz => ArenaPush a sz;; ret ts
  | OpPushZeroInit a sz => ArenaPushZeroInit a sz;; ret ts
  | OpPop a sz => ArenaPop a sz;; ret ts
  | OpSetPosBack a p => ArenaSetPosBack a p;; ret ts
  | OpClear a => ArenaClear a;; ret ts
  | OpScratchBegin a => let* t := ArenaScratchBegin a in ret (ts ++ [t])
  | OpScratchEnd k =>
      match ts !! k with
      | Some t => ArenaScratchEnd t;; ret ts
      | None => undefined
      end
  end.

Fixpoint run_ops (os : list op) (ts : list ArenaTemp) : M (list ArenaTemp) :=
  match os with
  | [] => ret ts
  | o :: os' => let* ts' := run_op o ts in run_ops os' ts'
  end.

(** The arguments of an operation have the type [uint64_t]. *)
Definition op_wf (o : op) : Prop :=
  match o with
  | OpPush _ sz | OpPushZeroInit _ sz | OpPop _ sz => is_u64 sz
  | OpSetPosBack _ p => is_u64 p
  | OpClear _ | OpScratchBegin _ | OpScratchEnd _ => True
  end.

(** ** Invariants of the machine state *)

(** What never changes in a header: where the region is and how large. *)
Definition extent (A : Arena) : ptr * Z := (base A, size A).

Definition regions (s : State) : gmap Z (ptr * Z) := extent <$> hdr s.

(** The cursor of a header lies within its capacity. *)
Definition cursor_ok (A : Arena) : Prop := 0 <= pos A <= size A.

Definition state_ok (s : State) : Prop :=
  forall a A, hdr s !! a = Some A -> cursor_ok A.

(** A checkpoint holds a position within the capacity of its arena. *)
Definition temp_ok (s : State) (t : ArenaTemp) : Prop :=
  forall A, hdr s !! temp_arena t = Some A -> 0 <= temp_pos t <= size A.

(** From [s] to [s'] the headers are as they were, but for the position of
    at most one of them; the new position is within the capacity when [P]
    holds. *)
Definition repositioned (P : Prop) (s s' : State) : Prop :=
  hdr s' = hdr s \/
  exists a A v,
    hdr s !! a = Some A /\ hdr s' = <[a := with_pos A v]> (hdr s) /\
    (P -> 0 <= v <= size A).

(** ** A concrete machine, for the examples *)

(** 4 KiB pages; the first mapping lands at [0x10000]. *)
Definition os4k : OS := mkOS 4096 (fun _ _ => Some 65536).

Definition empty_state : State := mkState ∅ ∅ [].

(** The same machine when it has no memory to give: [mmap] fails. *)
Definition os_refuses : OS := mkOS 4096 (fun _ _ => None).

(** The arena reserved by [ArenaAlloc(64)] on that machine, and the state
    right after the call. *)
Definition arena0 : ptr := 65536.

Definition state0 : State :=
  match ArenaAlloc os4k 64 empty_state with
  | Some (_, s) => s
  | None => empty_state
  end.

(** A region that lies in the address space: its base is not null and its
    last byte has a 64-bit address. *)
Definition valid_region (A : Arena) : Prop :=
  0 < base A /\ 0 <= pos A /\ base A + size A < 2 ^ 64.

(** The bytes of a string literal, as [char] codes. *)
Definition cstr (x : string) : list Z :=
  map (fun c => Z.of_N (N_of_ascii c)) (list_ascii_of_string x).

(** The position of the arena at [a], when there is one. *)
Definition pos_of (a : ptr) (s : State) : option Z := pos <$> hdr s !! a.

(** The value a computation returns, when it is defined. *)
Definition result {A} (r : option (A * State)) : option A := fst <$> r.

(** ** arena.h: the array macros *)

(** [ARENA_CHECK_OVERFLOW(a, b)]: [(a) > 0 && (b) > SIZE_MAX / (a)], both
    operands as [size_t] values. *)
Definition ARENA_CHECK_OVERFLOW (a b : Z) : bool :=
  (a >? 0) && (b >? SIZE_MAX / a).

(** [PushArray(arena, type, count)], [sizeof_type] standing for
    [sizeof(type)]; the product is a [size_t]. *)
Definition PushArray (arena : ptr) (sizeof_type count : Z) : M ptr :=
  if ARENA_CHECK_OVERFLOW sizeof_type count then ret NULL
  else ArenaPush arena (wrap64 (sizeof_type * count)).

(** [PushArrayZeroInit(arena, type, count)]. *)
Definition PushArrayZeroInit (arena : ptr) (sizeof_type count : Z) : M ptr :=
  if ARENA_CHECK_OVERFLOW sizeof_type count then ret NULL
  else ArenaPushZeroInit arena (wrap64 (sizeof_type * count)).

(** [PopArray(arena, type, count)]: the product goes to [ArenaPop]
    unchecked. *)
Definition PopArray (arena : ptr) (sizeof_type count : Z) : M Z :=
  ArenaPop arena (wrap64 (sizeof_type * count)).

(** ** arena.h: releasing a region *)

(** [ArenaRelease]; [munmap] is the system call, given its address and
    length, with whatever it does to the machine and its [int] result. *)
Definition ArenaRelease (munmap : ptr -> Z -> M Z) (arena : ptr) : M Z :=
  if arena =? NULL then ret (-1)
  else
    let* a := load_arena arena in
    let* r := munmap (wrap64 (base a - sizeof_Arena))
                     (wrap64 (size a + sizeof_Arena)) in
    ret r.

(** A [munmap] that succeeds: the header at [addr] and the data bytes of
    [addr .. addr + len - 1] are gone afterwards. *)
Definition munmap_ok (addr len : Z) : M Z :=
  fun s => Some (0, mkState (delete addr (hdr s))
                            (filter (fun kv => ~ (addr <= kv.1 < addr + len))
                                    (data s))
                            (oslog s)).

(** ** str.h: writing a record out *)

(** The calls [m_putstr] makes, with their results. *)
Inductive event :=
| Dup (fd : Z) (r : Z)
| Write (fd : Z) (buf : ptr) (count : Z) (r : Z).

(** The file descriptors as [m_putstr] sees them: the result of [dup(fd)]
    and of [write(fd, buf, count)], which may depend on the calls made so
    far and on the memory. *)
Record Sink := mkSink {
  sink_dup : Z -> Z;
  sink_write : list event -> State -> Z -> ptr -> Z -> Z
}.

(** The [while] loop of [m_putstr], run for at most [fuel] iterations.
    [total] is the loop variable, [evs] the calls made so far.  The result
    is [None] when the fuel ran out before the loop ended. *)
Fixpoint putstr_loop (fuel : nat) (sk : Sink) (str : ptr) (fd_new : Z)
    (total : Z) (evs : list event) : M (option (list event)) :=
  match fuel with
  | O => ret None
  | S fuel' =>
      let* sz := load_u64 str in
      if total <? sz then
        fun s =>
          let buf := wrap64 (str + sizeof_Str + total) in
          let count := wrap64 (sz - total) in
          let written := sink_write sk evs s fd_new buf count in
          let evs' := evs ++ [Write fd_new buf count written] in
          if written <=? 0 then Some (Some evs', s)
          else putstr_loop fuel' sk str fd_new (wrap64 (total + written))
                           evs' s
      else ret (Some evs)
  end.

(** [m_putstr]: the calls it made, in order. *)
Definition m_putstr (fuel : nat) (sk : Sink) (str : ptr) (fd : Z)
    : M (option (list event)) :=
  if (str =? NULL) || (fd <? -1) then ret (Some [])
  else if fd =? -1 then putstr_loop fuel sk str 1 0 []
  else putstr_loop fuel sk str (sink_dup sk fd) 0 [Dup fd (sink_dup sk fd)].

(** The bytes found at [p .. p + n - 1]; none where some are unmapped. *)
Definition bytes_at (s : State) (p : ptr) (n : Z) : list Z :=
  match load_bytes p (Z.to_nat n) s with
  | Some (l, _) => l
  | None => []
  end.

(** The bytes a sequence of calls got written: for each [write] with a
    positive result [r], the first [r] bytes of its buffer. *)
Fixpoint emitted (s : State) (evs : list event) : list Z :=
  match evs with
  | [] => []
  | Write _ buf _ r :: evs' =>
      (if 0 <? r then bytes_at s buf r else []) ++ emitted s evs'
  | Dup _ _ :: evs' => emitted s evs'
  end.

(** The call is a [write] to the descriptor [fd]. *)
Definition writes_to (fd : Z) (e : event) : Prop :=
  match e with
  | Write fd' _ _ _ => fd' = fd
  | Dup _ _ => False
  end.

(** The call is a [write] that returned a positive count. *)
Definition progressed (e : event) : Prop :=
  match e with
  | Write _ _ _ r => 0 < r
  | Dup _ _ => True
  end.

(** A sink that never reports more bytes than it was offered. *)
Definition bounded_sink (sk : Sink) : Prop :=
  forall evs s fd buf count,
    0 <= count -> sink_write sk evs s fd buf count <= count.

(** A sink that takes at least one byte whenever it is offered some. *)
Definition progressing_sink (sk : Sink) : Prop :=
  forall evs s fd buf count,
    0 < count -> 0 < sink_write sk evs s fd buf count.

(** A sink that takes up to three bytes per call; [dup] yields 7. *)
Definition sink3 : Sink := mkSink (fun _ => 7) (fun _ _ _ _ c => Z.min c 3).

(** A sink that takes two bytes, then fails. *)
Definition sink_fails : Sink :=
  mkSink (fun _ => 7)
         (fun evs _ _ _ c => match evs with [] => Z.min c 2 | _ => -1 end).

(** The machine after [PushStr(arena0, "hello")] on the fresh arena; the
    record is at [65573]. *)
Definition state_hello : State :=
  match PushStr arena0 (Some (cstr "hello")) state0 with
  | Some (_, s) => s
  | None => state0
  end.

Definition hello : ptr := 65573.

(** The machine after [ArenaPush(arena0, 100)] on the fresh arena. *)
Definition state100 : State :=
  match ArenaPush arena0 100 state0 with
  | Some (_, s) => s
  | None => state0
  end.

(** The operations other than the zeroing push. *)
Definition no_zero_init (o : op) : Prop :=
  match o with
  | OpPushZeroInit _ _ => False
  | _ => True
  end.



(** A run on the arena at position 100 that moves the cursor about, and
    the state it ends in. *)
Definition ops1 : list op :=
  [OpPop arena0 30; OpScratchBegin arena0; OpPush arena0 8;
   OpClear arena0; OpScratchEnd 0; OpSetPosBack arena0 0].

Definition state_ops1 : State :=
  match run_ops ops1 [] state100 with
  | Some (_, s) => s
  | None => state100
  end.

(** ** The allocator with the header in memory *)

(** Above, the headers are kept apart from the data bytes, which is what
    the code does as long as no write lands in a header.  [ArenaAlloc]
    puts the header in the first bytes of the mapping, though, and
    [memset] writes wherever it is told.  In this module the header is
    where the code has it: [base] in the bytes [arena .. arena + 7],
    [size] in [arena + 8 .. arena + 15], [pos] in
    [arena + 16 .. arena + 23], little-endian, and a mapping of
    [total_size] bytes covers header and usable bytes alike. *)
Module Flat.

Definition offsetof_base : Z := 0.
Definition offsetof_size : Z := 8.
Definition offsetof_pos : Z := 16.

(** The kernel's side of a granted [mmap]: [len] zero bytes at [mem]. *)
Definition map_pages (mem : ptr) (len : Z) : M unit :=
  fun s => Some (tt, set_data (map_zero mem (Z.to_nat len) (data s)) s).

(** [ArenaAlloc]. *)
Definition ArenaAlloc (os : OS) (sz : Z) : M ptr :=
  if (sz =? 0) || (sz >? SIZE_MAX - sizeof_Arena) then ret NULL
  else
    let* page_size := sysconf_PAGESIZE os in
    if page_size =? -1 then ret NULL
    else
      let total_size := total_size_of sz page_size in
      let* mem := mmap os total_size in
      match mem with
      | None => ret NULL
      | Some mem =>
          map_pages mem total_size;;
          store_u64 (mem + offsetof_base) (wrap64 (mem + sizeof_Arena));;
          store_u64 (mem + offsetof_size)
                    (wrap64 (total_size - sizeof_Arena));;
          store_u64 (mem + offsetof_pos) 0;;
          ret mem
      end.

(** [ArenaPush]. *)
Definition ArenaPush (arena : ptr) (sz : Z) : M ptr :=
  if (arena =? NULL) || (sz =? 0) then ret NULL
  else
    let* current := load_u64 (arena + offsetof_pos) in
    let* p := load_u64 (arena + offsetof_pos) in
    let* c := load_u64 (arena + offsetof_size) in
    if wrap64 (p + sz) >? c then ret NULL
    else
      let* p' := load_u64 (arena + offsetof_pos) in
      store_u64 (arena + offsetof_pos) (wrap64 (p' + sz));;
      let* b := load_u64 (arena + offsetof_base) in
      let* p'' := load_u64 (arena + offsetof_pos) in
      ret (wrap64 (b + p'')).

(** [ArenaPushZeroInit]. *)
Definition ArenaPushZeroInit (arena : ptr) (sz : Z) : M ptr :=
  let* p := ArenaPush arena sz in
  if p =? 0 then ret NULL
  else memset p 0 sz;; ret p.

Definition ArenaGetPos (arena : ptr) : M Z :=
  load_u64 (arena + offsetof_pos).

Definition ArenaGetSize (arena : ptr) : M Z :=
  load_u64 (arena + offsetof_size).

Definition ArenaGetBase (arena : ptr) : M ptr :=
  load_u64 (arena + offsetof_base).

End Flat.


(** * Properties *)

(** ** Machine arithmetic *)

Lemma wrap64_small z : is_u64 z -> wrap64 z = z.
Proof. unfold is_u64, wrap64. intros H. apply Z.mod_small. lia. Qed.

Lemma wrap64_range z : is_u64 (wrap64 z).
Proof. unfold is_u64, wrap64. apply Z.mod_pos_bound. lia. Qed.

Lemma wrap64_le z : 0 <= z -> wrap64 z <= z.
Proof. unfold wrap64. intros H. apply Z.mod_le; lia. Qed.

(** ** The operations, on a live arena *)

Section LiveArena.

Variables (a : ptr) (A : Arena) (s : State).
Hypothesis Hlive : hdr s !! a = Some A.

Lemma load_arena_live : load_arena a s = Some (A, s).
Proof using Hlive. unfold load_arena. by rewrite Hlive. Qed.

Lemma store_pos_live v :
  store_pos a v s = Some (tt, put_arena a (with_pos A v) s).
Proof using Hlive. unfold store_pos. by rewrite Hlive. Qed.

Lemma put_arena_lookup A' : hdr (put_arena a A' s) !! a = Some A'.
Proof. unfold put_arena. simpl. apply lookup_insert_eq. Qed.

Lemma put_arena_same : put_arena a A s = s.
Proof using Hlive.
  unfold put_arena, set_hdr. rewrite insert_id by done. by destruct s.
Qed.

Lemma ArenaPush_live sz :
  a <> NULL ->
  ArenaPush a sz s =
    if (sz =? 0) || (wrap64 (pos A + sz) >? size A)
    then Some (NULL, s)
    else Some (wrap64 (base A + wrap64 (pos A + sz)),
               put_arena a (with_pos A (wrap64 (pos A + sz))) s).
Proof using Hlive.
  intros Ha. unfold ArenaPush.
  destruct (Z.eqb_spec a NULL) as [|_]; [done|]. simpl.
  destruct (sz =? 0); [done|]. simpl.
  unfold bind. rewrite load_arena_live.
  destruct (wrap64 (pos A + sz) >? size A); [done|].
  rewrite store_pos_live. unfold load_arena.
  by rewrite put_arena_lookup.
Qed.

Lemma ArenaPop_live sz :
  ArenaPop a sz s =
    if sz >? pos A then Some (-1, s)
    else Some (0, put_arena a (with_pos A (wrap64 (pos A - sz))) s).
Proof using Hlive.
  unfold ArenaPop, bind. rewrite load_arena_live.
  destruct (sz >? pos A); [done|]. by rewrite store_pos_live.
Qed.

Lemma ArenaSetPosBack_live p :
  ArenaSetPosBack a p s =
    if p >? pos A then Some (-1, s)
    else Some (0, put_arena a (with_pos A p) s).
Proof using Hlive.
  unfold ArenaSetPosBack, bind. rewrite load_arena_live.
  destruct (p >? pos A); [done|]. by rewrite store_pos_live.
Qed.

Lemma ArenaClear_live :
  ArenaClear a s = Some (tt, put_arena a (with_pos A 0) s).
Proof using Hlive. apply store_pos_live. Qed.

Lemma ArenaScratchBegin_live :
  ArenaScratchBegin a s = Some (mkArenaTemp a (pos A), s).
Proof using Hlive.
  unfold ArenaScratchBegin, bind. by rewrite load_arena_live.
Qed.

End LiveArena.

(** ** ArenaPop *)

(** C7: [ArenaPop] reports underflow ([-1]) exactly when the size exceeds
    the current position and then leaves the state as it was; otherwise it
    returns [0] and moves the position back by the size.  After pushes of
    10 and 20 bytes the position is 30, a pop of 20 makes it 10, and a
    second pop of 20 fails with the position still 10. *)
Theorem ArenaPop_underflow :
  (forall a A s sz,
      hdr s !! a = Some A -> is_u64 (pos A) -> is_u64 sz ->
      ArenaPop a sz s =
        if decide (pos A < sz) then Some (-1, s)
        else Some (0, put_arena a (with_pos A (pos A - sz)) s)) /\
  (forall a A s,
      a <> NULL -> hdr s !! a = Some A -> pos A = 0 -> 30 <= size A ->
      result ((ArenaPush a 10;; ArenaPush a 20;;
               let* p1 := ArenaGetPos a in
               let* r1 := ArenaPop a 20 in
               let* p2 := ArenaGetPos a in
               let* r2 := ArenaPop a 20 in
               let* p3 := ArenaGetPos a in
               ret (p1, r1, p2, r2, p3)) s)
      = Some (30, 0, 10, -1, 10)).
Proof.
  split.
  - intros a A s sz Hlive Hpos Hsz.
    rewrite (ArenaPop_live a A s Hlive). unfold is_u64 in *.
    case_decide as Hlt.
    + destruct (Z.gtb_spec sz (pos A)); [done|lia].
    + destruct (Z.gtb_spec sz (pos A)); [lia|].
      rewrite wrap64_small; [done|unfold is_u64; lia].
  - intros a [b c p] s Ha Hlive Hp Hc. simpl in *. subst p.
    unfold bind at 1.
    rewrite (ArenaPush_live a _ s Hlive 10 Ha). simpl pos; simpl size.
    change (wrap64 (0 + 10)) with 10.
    destruct (Z.gtb_spec 10 c); [lia|]. simpl orb. cbv iota.
    set (s1 := put_arena a _ s).
    assert (H1 : hdr s1 !! a = Some (mkArena b c 10))
      by apply put_arena_lookup.
    unfold bind at 1.
    rewrite (ArenaPush_live a _ s1 H1 20 Ha). simpl pos; simpl size.
    change (wrap64 (10 + 20)) with 30.
    destruct (Z.gtb_spec 30 c); [lia|]. simpl orb. cbv iota.
    set (s2 := put_arena a _ s1).
    assert (H2 : hdr s2 !! a = Some (mkArena b c 30))
      by apply put_arena_lookup.
    unfold bind at 1. unfold ArenaGetPos at 1. unfold bind at 1.
    rewrite (load_arena_live a _ s2 H2). unfold ret at 1.
    unfold bind at 1. rewrite (ArenaPop_live a _ s2 H2). simpl.
    set (s3 := put_arena a _ s2).
    assert (H3 : hdr s3 !! a = Some (mkArena b c 10))
      by apply put_arena_lookup.
    unfold bind at 1. unfold ArenaGetPos at 1. unfold bind at 1.
    rewrite (load_arena_live a _ s3 H3). unfold ret at 1.
    unfold bind at 1. rewrite (ArenaPop_live a _ s3 H3). simpl.
    unfold bind at 1. unfold ArenaGetPos at 1. unfold bind at 1.
    rewrite (load_arena_live a _ s3 H3). done.
Qed.


Lemma ArenaPop_underflow_witness :
  ArenaPop arena0 20 state0 = Some (-1, state0) /\
  result ((ArenaPush arena0 10;; ArenaPush arena0 20;;
           let* p1 := ArenaGetPos arena0 in
           let* r1 := ArenaPop arena0 20 in
           let* p2 := ArenaGetPos arena0 in
           let* r2 := ArenaPop arena0 20 in
           let* p3 := ArenaGetPos arena0 in
           ret (p1, r1, p2, r2, p3)) state0)
  = Some (30, 0, 10, -1, 10).
Proof.
  split.
  - refine (proj1 ArenaPop_underflow arena0 (mkArena 65560 4072 0)
              state0 20 _ _ _).
    + vm_compute. reflexivity.
    + unfold is_u64. simpl. lia.
    + unfold is_u64. lia.
  - refine (proj2 ArenaPop_underflow arena0 (mkArena 65560 4072 0)
              state0 _ _ _ _).
    + unfold arena0, NULL. lia.
    + vm_compute. reflexivity.
    + reflexivity.
    + simpl. lia.
Defined.

(** C10: popping zero bytes succeeds (status [0]) and leaves the state,
    hence the position, as it was; pushing zero bytes is refused. *)
Theorem ArenaPop_zero a A s :
  hdr s !! a = Some A -> is_u64 (pos A) ->
  ArenaPop a 0 s = Some (0, s) /\ ArenaPush a 0 s = Some (NULL, s).
Proof.
  intros Hlive Hpos. split.
  - rewrite (ArenaPop_live a A s Hlive). unfold is_u64 in Hpos.
    destruct (Z.gtb_spec 0 (pos A)); [lia|].
    rewrite Z.sub_0_r, wrap64_small by done.
    replace (with_pos A (pos A)) with A by (by destruct A).
    by rewrite put_arena_same.
  - unfold ArenaPush. simpl. by rewrite orb_true_r.
Qed.

Lemma ArenaPop_zero_witness :
  ArenaPop arena0 0 state0 = Some (0, state0) /\
  ArenaPush arena0 0 state0 = Some (NULL, state0).
Proof.
  apply (ArenaPop_zero arena0 (mkArena 65560 4072 0) state0).
  - vm_compute. reflexivity.
  - unfold is_u64. simpl. lia.
Defined.

(** ** ArenaPush *)

(** A push of zero bytes, or one that does not fit where the sum
    [pos + sz] is representable, returns [NULL] and changes nothing. *)
Lemma ArenaPush_exhausted a A s sz :
  a <> NULL -> hdr s !! a = Some A -> 0 <= pos A ->
  sz = 0 \/ (0 <= sz /\ size A < pos A + sz < 2 ^ 64) ->
  ArenaPush a sz s = Some (NULL, s).
Proof.
  intros Ha Hlive Hpos [->|[Hsz Hfit]].
  - unfold ArenaPush. simpl. by rewrite orb_true_r.
  - rewrite (ArenaPush_live a A s Hlive sz Ha).
    rewrite wrap64_small by (unfold is_u64; lia).
    destruct (sz =? 0); [done|]. simpl.
    destruct (Z.gtb_spec (pos A + sz) (size A)); [done|lia].
Qed.

(** C4, as the code has it: a push of [sz] bytes with
    [0 < sz <= size - pos] succeeds, and the new position is the old one
    plus [sz]. *)
Theorem ArenaPush_fits a A s sz :
  a <> NULL -> hdr s !! a = Some A -> valid_region A ->
  0 < sz <= size A - pos A ->
  exists p,
    ArenaPush a sz s = Some (p, put_arena a (with_pos A (pos A + sz)) s) /\
    p <> NULL /\
    pos_of a (put_arena a (with_pos A (pos A + sz)) s) = Some (pos A + sz).
Proof.
  intros Ha Hlive (Hb & Hp & Hend) Hsz.
  rewrite (ArenaPush_live a A s Hlive sz Ha).
  rewrite (wrap64_small (pos A + sz)) by (unfold is_u64; lia).
  destruct (Z.eqb_spec sz 0); [lia|]. simpl.
  destruct (Z.gtb_spec (pos A + sz) (size A)); [lia|].
  eexists. split; [done|]. split.
  - rewrite wrap64_small by (unfold is_u64; lia). unfold NULL. lia.
  - unfold pos_of. by rewrite put_arena_lookup.
Qed.

Lemma ArenaPush_fits_witness :
  exists p,
    ArenaPush arena0 16 state0
    = Some (p, put_arena arena0 (with_pos (mkArena 65560 4072 0) (0 + 16))
                 state0) /\
    p <> NULL /\
    pos_of arena0
      (put_arena arena0 (with_pos (mkArena 65560 4072 0) (0 + 16)) state0)
    = Some (0 + 16).
Proof.
  apply (ArenaPush_fits arena0 (mkArena 65560 4072 0) state0 16).
  - unfold arena0, NULL. lia.
  - vm_compute. reflexivity.
  - unfold valid_region. simpl. lia.
  - simpl. lia.
Defined.

(** C4 as stated fails at size 0: on the fresh arena it is within the
    remaining capacity, and the push is refused. *)
Lemma ArenaPush_fits_counterexample :
  arena0 <> NULL /\
  hdr state0 !! arena0 = Some (mkArena 65560 4072 0) /\
  valid_region (mkArena 65560 4072 0) /\
  0 <= 4072 - 0 /\
  ArenaPush arena0 0 state0 = Some (NULL, state0) /\
  ~ (exists p s',
        ArenaPush arena0 0 state0 = Some (p, s') /\ p <> NULL /\
        pos_of arena0 s' = Some (0 + 0)).
Proof.
  split; [unfold arena0, NULL; lia|].
  split; [vm_compute; reflexivity|].
  split; [unfold valid_region; simpl; lia|].
  split; [lia|].
  split; [reflexivity|].
  intros (p & s' & Hp & Hn & _).
  unfold ArenaPush in Hp. simpl in Hp. unfold ret in Hp.
  injection Hp as <- _. by apply Hn.
Qed.

(** After [ArenaClear], a push that succeeds returns the address [sz]
    bytes past the base: the end of the block it carved, never the base. *)
Lemma ArenaPush_after_clear a A s sz p s' :
  a <> NULL -> hdr s !! a = Some A -> is_u64 (base A) -> is_u64 sz ->
  (ArenaClear a;; ArenaPush a sz) s = Some (p, s') -> p <> NULL ->
  p = wrap64 (base A + sz) /\ p <> base A.
Proof.
  intros Ha Hlive Hb Hsz Hrun Hp. unfold bind in Hrun.
  rewrite (ArenaClear_live a A s Hlive) in Hrun.
  rewrite (ArenaPush_live a (with_pos A 0) _ (put_arena_lookup a s _) sz Ha)
    in Hrun.
  cbn [pos size base with_pos] in Hrun.
  rewrite Z.add_0_l, (wrap64_small sz) in Hrun by done.
  destruct ((sz =? 0) || (sz >? size A)) eqn:E.
  - injection Hrun as <- _. done.
  - injection Hrun as <- _. split; [done|].
    apply orb_false_iff in E as [E _]. apply Z.eqb_neq in E.
    unfold wrap64, is_u64 in *.
    change (2 ^ 64) with 18446744073709551616 in *.
    Z.div_mod_to_equations. lia.
Qed.

(** C1: on the 4 KiB machine, after [ArenaAlloc(64)] and [ArenaClear] the
    base is [65560], and a push of 16 bytes returns [65576], the address
    right after the block [65560 .. 65575] it carved. *)
Theorem ArenaPush_after_clear_returns_block_end :
  result ((ArenaClear arena0;;
           let* b := ArenaGetBase arena0 in
           let* p := ArenaPush arena0 16 in
           let* q := ArenaGetPos arena0 in
           ret (b, p, q)) state0)
  = Some (65560, 65576, 16).
Proof. vm_compute. reflexivity. Qed.

(** C3: with position 10 and capacity 4072, a push of [2^64 - 5] bytes
    exceeds the remaining 4062 bytes, yet the sum wraps to 5, the check
    passes, a pointer is returned and the position becomes 5. *)
Theorem ArenaPush_size_wraps :
  4072 - 10 < 2 ^ 64 - 5 /\
  is_u64 (2 ^ 64 - 5) /\
  result ((ArenaPush arena0 10;;
           let* p0 := ArenaGetPos arena0 in
           let* c := ArenaGetSize arena0 in
           let* p := ArenaPush arena0 (2 ^ 64 - 5) in
           let* p1 := ArenaGetPos arena0 in
           ret (p0, c, p, p1)) state0)
  = Some (10, 4072, 65565, 5).
Proof.
  split; [lia|]. split; [unfold is_u64; lia|]. vm_compute. reflexivity.
Qed.

(** ** ArenaPushZeroInit *)

(** [ArenaPushZeroInit] fails exactly when [ArenaPush] does, and then
    writes nothing: the state is the one [ArenaPush] left. *)
Lemma ArenaPushZeroInit_fails_iff a sz s s' :
  ArenaPushZeroInit a sz s = Some (NULL, s') <->
  ArenaPush a sz s = Some (NULL, s').
Proof.
  unfold ArenaPushZeroInit, bind.
  destruct (ArenaPush a sz s) as [[p s1]|]; [|done].
  destruct (Z.eqb_spec p 0) as [->|Hp]; [done|].
  split.
  - destruct (memset p 0 sz s1) as [[[] s2]|]; [|done].
    unfold ret. intros [= -> _]. done.
  - intros [= -> _]. done.
Qed.

(** C5: after a push of 8 bytes filled with [0xFF] and [ArenaClear],
    [ArenaPushZeroInit(16)] carves the block [65560 .. 65575], returns
    [65576] and zeroes the 16 bytes from there on; the carved block still
    holds the eight [0xFF] bytes.  And [ArenaPushZeroInit] of the whole
    capacity, 4072 bytes, passes the capacity check and then writes past
    the end of the mapping. *)
Theorem ArenaPushZeroInit_zeroes_past_block :
  result ((let* p := ArenaPush arena0 8 in
           memset p 255 8;;
           ArenaClear arena0;;
           let* b := ArenaGetBase arena0 in
           let* q := ArenaPushZeroInit arena0 16 in
           let* block := load_bytes b 16 in
           let* zeroed := load_bytes q 16 in
           ret (b, q, block, zeroed)) state0)
  = Some (65560, 65576,
          replicate 8 0 ++ replicate 8 255,
          replicate 16 0) /\
  result (ArenaPush arena0 4072 state0) = Some 69632 /\
  ArenaPushZeroInit arena0 4072 state0 = None.
Proof. repeat split; vm_compute; reflexivity. Qed.

(** ** PushStr and PopStr *)

(** *** Bytes written and read back *)

Lemma store_bytes_below bs p s u s' q :
  store_bytes p bs s = Some (u, s') -> q < p -> data s' !! q = data s !! q.
Proof.
  revert p s. induction bs as [|b bs IH]; intros p s; simpl.
  - by intros [= _ <-].
  - unfold bind, store_byte. destruct (data s !! p); [|done].
    intros H Hq. rewrite (IH _ _ H) by lia. simpl.
    apply lookup_insert_ne. lia.
Qed.

Lemma store_bytes_load bs p s u s' :
  store_bytes p bs s = Some (u, s') ->
  load_bytes p (List.length bs) s' = Some (bs, s').
Proof.
  revert p s. induction bs as [|b bs IH]; intros p s; simpl; [done|].
  unfold bind at 1, store_byte at 1. destruct (data s !! p); [|done].
  intros H. unfold bind, load_byte.
  rewrite (store_bytes_below _ _ _ _ _ p H) by lia. simpl.
  rewrite lookup_insert_eq. by rewrite (IH _ _ H).
Qed.

Lemma load_bytes_state n p s l s' :
  load_bytes p n s = Some (l, s') -> s' = s.
Proof.
  revert p l. induction n as [|n IH]; intros p l; simpl.
  - by intros [= _ <-].
  - unfold bind, load_byte. destruct (data s !! p); [|done].
    destruct (load_bytes (p + 1) n s) as [[l1 s1]|] eqn:E; [|done].
    intros [= _ <-]. by eapply IH.
Qed.

Lemma store_bytes_keeps_load bs q s u s' p n l :
  store_bytes q bs s = Some (u, s') -> p + Z.of_nat n <= q ->
  load_bytes p n s = Some (l, s) -> load_bytes p n s' = Some (l, s').
Proof.
  intros Hst. revert p l. induction n as [|n IH]; intros p l Hq; simpl.
  - by intros [= <-].
  - unfold bind, load_byte.
    rewrite (store_bytes_below _ _ _ _ _ p Hst) by lia.
    destruct (data s !! p) as [b|]; [|done].
    destruct (load_bytes (p + 1) n s) as [[l1 s1]|] eqn:E; [|done].
    pose proof (load_bytes_state _ _ _ _ _ E) as ->.
    intros [= <-]. by rewrite (IH (p + 1) l1 ltac:(lia) E).
Qed.

Lemma le_value_le_bytes n v :
  0 <= v -> le_value (le_bytes n v) = v mod 256 ^ Z.of_nat n.
Proof.
  revert v. induction n as [|n IH]; intros v Hv.
  - simpl. by rewrite Z.mod_1_r.
  - cbn [le_bytes le_value]. rewrite IH by (apply Z.div_pos; lia).
    rewrite Nat2Z.inj_succ, Z.pow_succ_r by lia.
    rewrite Z.rem_mul_r by lia. lia.
Qed.

Lemma strlen_length str : 0 <= strlen str <= Z.of_nat (List.length str).
Proof.
  induction str as [|c str IH]; simpl; [lia|].
  destruct (c =? 0); lia.
Qed.

Lemma ArenaPush_result_range a sz s p s' :
  ArenaPush a sz s = Some (p, s') -> is_u64 p.
Proof.
  unfold ArenaPush.
  destruct ((a =? NULL) || (sz =? 0));
    [intros [= <- _]; unfold is_u64, NULL; lia|].
  unfold bind, load_arena. destruct (hdr s !! a) as [A|]; [|done].
  destruct (wrap64 (pos A + sz) >? size A);
    [intros [= <- _]; unfold is_u64, NULL; lia|].
  unfold store_pos. destruct (hdr s !! a); [|done].
  rewrite put_arena_lookup. intros [= <- _]. apply wrap64_range.
Qed.

(** What holds of [PushStr] when its writes stay in mapped memory: the
    record reads back through the pointer returned, with the length and
    the bytes of the string. *)
Lemma PushStr_reads_back a str s r s' :
  PushStr a (Some str) s = Some (r, s') -> r <> NULL ->
  r + sizeof_Str < 2 ^ 64 -> strlen str < 2 ^ 64 ->
  Str_size r s' = Some (strlen str, s') /\
  Str_string r s' = Some (take (Z.to_nat (strlen str)) str, s').
Proof.
  unfold PushStr, sizeof_Str. intros Hrun Hr Hfit Hlt.
  pose proof (strlen_length str) as Hlen.
  destruct (a =? NULL); [by injection Hrun as <- _|].
  destruct (strlen str =? SIZE_MAX); [by injection Hrun as <- _|].
  unfold bind at 1 in Hrun.
  destruct (ArenaPush a _ s) as [[res s1]|] eqn:Hpush; [|done].
  apply ArenaPush_result_range in Hpush. unfold is_u64 in Hpush.
  destruct (Z.eqb_spec res NULL); [by injection Hrun as <- _|].
  unfold bind at 1 in Hrun. unfold store_u64 in Hrun.
  destruct (store_bytes res _ s1) as [[u2 s2]|] eqn:Hhdr; [|done].
  unfold bind at 1 in Hrun. unfold memcpy in Hrun.
  destruct (store_bytes _ _ s2) as [[u3 s3]|] eqn:Hpay; [|done].
  injection Hrun as <- <-.
  rewrite (wrap64_small (res + 8)) in Hpay by (unfold is_u64; lia).
  assert (Hsize : load_u64 res s3 = Some (strlen str, s3)).
  { unfold load_u64, bind.
    apply store_bytes_load in Hhdr. change (List.length _) with 8%nat in Hhdr.
    rewrite (store_bytes_keeps_load _ _ _ _ _ res 8 (le_bytes 8 (strlen str))
               Hpay); [|lia|done].
    unfold ret. do 2 f_equal.
    rewrite le_value_le_bytes by lia. apply Z.mod_small.
    change (256 ^ Z.of_nat 8) with (2 ^ 64). lia. }
  split; [done|].
  unfold Str_string, sizeof_Str, bind. rewrite Hsize.
  rewrite (wrap64_small (res + 8)) by (unfold is_u64; lia).
  apply store_bytes_load in Hpay.
  rewrite length_take in Hpay.
  by replace (Z.to_nat (strlen str) `min` List.length str)%nat
    with (Z.to_nat (strlen str)) in Hpay by lia.
Qed.

(** [PopStr] on a record whose length field reads [n] pops exactly
    [sizeof(Str) + n] bytes. *)
Lemma PopStr_pops_record a A r n s :
  hdr s !! a = Some A -> is_u64 (pos A) ->
  Str_size r s = Some (n, s) ->
  0 <= n -> sizeof_Str + n <= pos A ->
  PopStr a r s
  = Some (tt, put_arena a (with_pos A (pos A - (sizeof_Str + n))) s).
Proof.
  unfold Str_size, PopStr, sizeof_Str, is_u64. intros Hl Hp Hn Hn0 Hfit.
  unfold bind at 1. rewrite Hn. unfold bind.
  rewrite (ArenaPop_live a A s Hl).
  rewrite (wrap64_small (8 + n)) by (unfold is_u64; lia).
  destruct (Z.gtb_spec (8 + n) (pos A)); [lia|].
  by rewrite wrap64_small by (unfold is_u64; lia).
Qed.

(** C6: with 16 bytes left in the arena, [PushStr] of the 8-byte string
    ["12345678"] needs exactly those 16 bytes; the push succeeds and the
    record is then written past the end of the mapping.  With room to
    spare, the record of ["hello world"] reads back right after its push,
    and a following [PushStr] of ["hi"] overwrites its payload. *)
Theorem PushStr_writes_past_block :
  result ((ArenaPush arena0 4056;;
           let* p := ArenaGetPos arena0 in
           let* c := ArenaGetSize arena0 in
           ret (c - p)) state0) = Some 16 /\
  (ArenaPush arena0 4056;; PushStr arena0 (Some (cstr "12345678"))) state0
  = None /\
  result ((let* r1 := PushStr arena0 (Some (cstr "hello world")) in
           let* before := Str_string r1 in
           let* r2 := PushStr arena0 (Some (cstr "hi")) in
           let* n := Str_size r1 in
           let* after := Str_string r1 in
           ret (before, n, after)) state0)
  = Some (cstr "hello world", 11,
          [104; 101; 2; 0; 0; 0; 0; 0; 0; 0; 104]).
Proof. repeat split; vm_compute; reflexivity. Qed.

(** ** ArenaAlloc *)

(** The mask [~(page_size - 1)] clears the low [k] bits when the page size
    is [2^k]. *)
Lemma page_mask x k :
  is_u64 x -> 0 <= k ->
  Z.land x (wrap64 (Z.lnot (2 ^ k - 1))) = x - x mod 2 ^ k.
Proof.
  intros Hx Hk. unfold wrap64.
  rewrite <- (Z.land_ones _ 64) by lia.
  rewrite Z.land_assoc, (Z.land_comm x), <- Z.land_assoc.
  rewrite (Z.land_ones x 64) by lia.
  rewrite (Z.mod_small x) by exact Hx.
  rewrite Z.land_comm, <- Z.ldiff_land.
  replace (2 ^ k - 1) with (Z.ones k) by (rewrite Z.ones_equiv; lia).
  rewrite Z.ldiff_ones_r by lia.
  rewrite Z.shiftr_div_pow2, Z.shiftl_mul_pow2 by lia.
  assert (2 ^ k <> 0) by (apply Z.pow_nonzero; lia).
  rewrite (Zmod_eq_full x (2 ^ k)) by done. lia.
Qed.

(** The rounded total, when the sum does not wrap: the least multiple of
    the page size that holds the request and the header. *)
Lemma total_size_of_rounds R k :
  0 <= R -> 0 <= k -> R + sizeof_Arena + 2 ^ k - 1 < 2 ^ 64 ->
  total_size_of R (2 ^ k) mod 2 ^ k = 0 /\
  R + sizeof_Arena <= total_size_of R (2 ^ k) < R + sizeof_Arena + 2 ^ k.
Proof.
  intros HR Hk Hfit. unfold total_size_of, sizeof_Arena in *.
  assert (Hp : 0 < 2 ^ k) by (apply Z.pow_pos_nonneg; lia).
  rewrite (wrap64_small (R + 24 + 2 ^ k - 1)) by (unfold is_u64; lia).
  rewrite page_mask by (unfold is_u64; lia).
  set (x := R + 24 + 2 ^ k - 1).
  pose proof (Z.mod_pos_bound x (2 ^ k) Hp) as Hm.
  split; [|subst x; lia].
  rewrite (Zmod_eq_full x (2 ^ k)) by lia.
  replace (x - (x - x / 2 ^ k * 2 ^ k)) with (x / 2 ^ k * 2 ^ k) by lia.
  apply Z.mod_mul. lia.
Qed.

(** The rounded total, when the sum wraps: zero. *)
Lemma total_size_of_wraps R k :
  0 <= k < 63 -> R + sizeof_Arena <= SIZE_MAX ->
  2 ^ 64 <= R + sizeof_Arena + 2 ^ k - 1 ->
  total_size_of R (2 ^ k) = 0.
Proof.
  intros Hk HR Hwrap. unfold total_size_of, sizeof_Arena, SIZE_MAX in *.
  assert (Hp : 0 < 2 ^ k) by (apply Z.pow_pos_nonneg; lia).
  assert (Hk' : 2 ^ k < 2 ^ 64) by (apply Z.pow_lt_mono_r; lia).
  assert (Hx : wrap64 (R + 24 + 2 ^ k - 1) = R + 24 + 2 ^ k - 1 - 2 ^ 64).
  { unfold wrap64. symmetry. apply (Z.mod_unique _ _ 1); lia. }
  rewrite Hx, page_mask by (unfold is_u64; lia).
  rewrite Z.mod_small by lia. lia.
Qed.

(** C8: with a page size that is a power of two, a request of [R] bytes
    ([R > 0], [R] plus the header size within [SIZE_MAX]) for which [mmap]
    grants a mapping at [mem] returns [mem], and the header installed
    there has its base right after the header, position 0 and a capacity
    equal to the rounded total minus the header size, which is at least
    [R]; where the sum does not wrap, the total is the request plus the
    header rounded up to the page size.  The operating system was asked
    for the page size and then for the mapping.  When [mmap] refuses, the
    result is [NULL].  A request of 0 bytes, and one whose sum with the
    header size exceeds [SIZE_MAX], return [NULL] in an unchanged state:
    no call to the operating system was logged. *)
Theorem ArenaAlloc_capacity os s k :
  0 <= k < 63 -> os_pagesize os = 2 ^ k ->
  (forall R mem,
      0 < R -> R + sizeof_Arena <= SIZE_MAX ->
      os_mmap os (log_call Sysconf s) (total_size_of R (2 ^ k)) = Some mem ->
      exists s' A,
        ArenaAlloc os R s = Some (mem, s') /\
        hdr s' !! mem = Some A /\
        base A = wrap64 (mem + sizeof_Arena) /\ pos A = 0 /\
        size A = wrap64 (total_size_of R (2 ^ k) - sizeof_Arena) /\
        R <= size A /\
        (R + sizeof_Arena + 2 ^ k - 1 < 2 ^ 64 ->
         total_size_of R (2 ^ k) mod 2 ^ k = 0 /\
         R + sizeof_Arena <= total_size_of R (2 ^ k)
                          < R + sizeof_Arena + 2 ^ k /\
         size A = total_size_of R (2 ^ k) - sizeof_Arena) /\
        oslog s' = Mmap (total_size_of R (2 ^ k)) :: Sysconf :: oslog s) /\
  (forall R,
      0 < R -> R + sizeof_Arena <= SIZE_MAX ->
      os_mmap os (log_call Sysconf s) (total_size_of R (2 ^ k)) = None ->
      ArenaAlloc os R s
      = Some (NULL, log_call (Mmap (total_size_of R (2 ^ k)))
                      (log_call Sysconf s))) /\
  ArenaAlloc os 0 s = Some (NULL, s) /\
  (forall R, SIZE_MAX < R + sizeof_Arena ->
             ArenaAlloc os R s = Some (NULL, s)).
Proof.
  intros Hk Hpage.
  assert (Hp : 0 < 2 ^ k) by (apply Z.pow_pos_nonneg; lia).
  assert (Hk' : 2 ^ k < 2 ^ 64) by (apply Z.pow_lt_mono_r; lia).
  assert (Hrun : forall R, 0 < R -> R + sizeof_Arena <= SIZE_MAX ->
            ArenaAlloc os R s
            = (let* mem := mmap os (total_size_of R (2 ^ k)) in
               match mem with
               | Some mem =>
                   install mem (total_size_of R (2 ^ k))
                     (mkArena (wrap64 (mem + sizeof_Arena))
                        (wrap64 (total_size_of R (2 ^ k) - sizeof_Arena))
                        0);;
                   ret mem
               | None => ret NULL
               end) (log_call Sysconf s)).
  { intros R HR0 HRmax. unfold ArenaAlloc.
    destruct (Z.eqb_spec R 0); [lia|]. simpl orb.
    destruct (Z.gtb_spec R (SIZE_MAX - sizeof_Arena)); [lia|].
    unfold bind at 1, sysconf_PAGESIZE. rewrite Hpage.
    destruct (Z.eqb_spec (2 ^ k) (-1)); [lia|done]. }
  split; [|split; [|split]].
  - intros R mem HR0 HRmax Hmem. rewrite (Hrun R HR0 HRmax).
    unfold bind at 1, mmap. rewrite Hmem.
    unfold bind, install, ret. simpl.
    eexists _, _. split; [reflexivity|].
    split; [apply lookup_insert_eq|]. simpl.
    split; [done|]. split; [done|]. split; [done|].
    unfold SIZE_MAX, sizeof_Arena in *.
    destruct (Z_lt_dec (R + 24 + 2 ^ k - 1) (2 ^ 64)) as [Hfit|Hwrap].
    + destruct (total_size_of_rounds R k) as [Hmod Hrange];
        [lia|lia|exact Hfit|].
      unfold sizeof_Arena in *.
      rewrite wrap64_small by (unfold is_u64; lia).
      repeat split; lia.
    + rewrite total_size_of_wraps by (unfold sizeof_Arena, SIZE_MAX; lia).
      change (wrap64 (0 - 24)) with (2 ^ 64 - 24).
      repeat split; lia.
  - intros R HR0 HRmax Hmem. rewrite (Hrun R HR0 HRmax).
    unfold bind, mmap. by rewrite Hmem.
  - reflexivity.
  - intros R Hbig. unfold ArenaAlloc.
    destruct (Z.gtb_spec R (SIZE_MAX - sizeof_Arena)); [|lia].
    by rewrite orb_true_r.
Qed.

Lemma ArenaAlloc_capacity_witness :
  (exists s' A,
      ArenaAlloc os4k 64 empty_state = Some (65536, s') /\
      hdr s' !! 65536 = Some A /\
      base A = wrap64 (65536 + sizeof_Arena) /\ pos A = 0 /\
      size A = wrap64 (total_size_of 64 (2 ^ 12) - sizeof_Arena) /\
      64 <= size A /\
      (64 + sizeof_Arena + 2 ^ 12 - 1 < 2 ^ 64 ->
       total_size_of 64 (2 ^ 12) mod 2 ^ 12 = 0 /\
       64 + sizeof_Arena <= total_size_of 64 (2 ^ 12)
                         < 64 + sizeof_Arena + 2 ^ 12 /\
       size A = total_size_of 64 (2 ^ 12) - sizeof_Arena) /\
      oslog s' = Mmap (total_size_of 64 (2 ^ 12)) :: Sysconf
                   :: oslog empty_state) /\
  ArenaAlloc os_refuses 64 empty_state
  = Some (NULL, log_call (Mmap (total_size_of 64 (2 ^ 12)))
                  (log_call Sysconf empty_state)) /\
  ArenaAlloc os4k 0 empty_state = Some (NULL, empty_state) /\
  ArenaAlloc os4k (2 ^ 64 - 1) empty_state = Some (NULL, empty_state).
Proof.
  destruct (ArenaAlloc_capacity os4k empty_state 12 ltac:(lia) eq_refl)
    as (Hgrant & _ & Hzero & Hbig).
  destruct (ArenaAlloc_capacity os_refuses empty_state 12 ltac:(lia) eq_refl)
    as (_ & Hrefuse & _ & _).
  split; [|split; [|split]].
  - apply (Hgrant 64 65536).
    + lia.
    + unfold sizeof_Arena, SIZE_MAX. lia.
    + reflexivity.
  - apply (Hrefuse 64).
    + lia.
    + unfold sizeof_Arena, SIZE_MAX. lia.
    + reflexivity.
  - exact Hzero.
  - apply (Hbig (2 ^ 64 - 1)). unfold sizeof_Arena, SIZE_MAX. lia.
Defined.

(** ** Sequences of operations: what each one does to the headers *)

Lemma repositioned_weaken (P Q : Prop) s s' :
  (Q -> P) -> repositioned P s s' -> repositioned Q s s'.
Proof.
  intros HQP [H|(a & A & v & Hl & Hs & Hv)]; [by left|].
  right. exists a, A, v. auto.
Qed.

Lemma repositioned_put P a A v s :
  hdr s !! a = Some A -> (P -> 0 <= v <= size A) ->
  repositioned P s (put_arena a (with_pos A v) s).
Proof. intros Hl Hv. right. by exists a, A, v. Qed.

Lemma store_bytes_hdr bs p s u s' :
  store_bytes p bs s = Some (u, s') -> hdr s' = hdr s.
Proof.
  revert p s. induction bs as [|b bs IH]; intros p s; simpl.
  - by intros [= _ <-].
  - unfold bind, store_byte. destruct (data s !! p); [|done].
    intros H. by rewrite (IH _ _ H).
Qed.

Lemma ArenaPush_repositioned a sz s p s' :
  ArenaPush a sz s = Some (p, s') -> repositioned True s s'.
Proof.
  destruct (Z.eqb_spec a NULL) as [->|Ha].
  - unfold ArenaPush. simpl. intros [= _ <-]. by left.
  - destruct (hdr s !! a) as [A|] eqn:Hl.
    + rewrite (ArenaPush_live a A s Hl sz Ha).
      destruct (sz =? 0); simpl; [intros [= _ <-]; by left|].
      destruct (Z.gtb_spec (wrap64 (pos A + sz)) (size A)).
      * intros [= _ <-]. by left.
      * intros [= _ <-]. apply repositioned_put; [done|].
        intros _. pose proof (wrap64_range (pos A + sz)) as Hr.
        unfold is_u64 in Hr. lia.
    + unfold ArenaPush. destruct (Z.eqb_spec a NULL); [done|]. simpl.
      destruct (sz =? 0); simpl; [intros [= _ <-]; by left|].
      unfold bind, load_arena. by rewrite Hl.
Qed.

Lemma ArenaPushZeroInit_repositioned a sz s p s' :
  ArenaPushZeroInit a sz s = Some (p, s') -> repositioned True s s'.
Proof.
  unfold ArenaPushZeroInit, bind.
  destruct (ArenaPush a sz s) as [[q s1]|] eqn:Hpush; [|done].
  apply ArenaPush_repositioned in Hpush.
  destruct (q =? 0); [by intros [= _ <-]|].
  unfold memset. destruct (store_bytes _ _ s1) as [[u s2]|] eqn:Hst; [|done].
  intros [= _ <-]. apply store_bytes_hdr in Hst.
  destruct Hpush as [H|(b & B & v & ? & H & ?)].
  - left. congruence.
  - right. exists b, B, v. split; [done|]. split; [congruence|done].
Qed.

Lemma ArenaPop_repositioned a sz s r s' :
  ArenaPop a sz s = Some (r, s') ->
  repositioned (state_ok s /\ is_u64 sz) s s'.
Proof.
  destruct (hdr s !! a) as [A|] eqn:Hl.
  - rewrite (ArenaPop_live a A s Hl).
    destruct (Z.gtb_spec sz (pos A)); intros [= _ <-]; [by left|].
    apply repositioned_put; [done|]. intros [Hok Hsz].
    specialize (Hok a A Hl). unfold cursor_ok, is_u64 in *.
    pose proof (wrap64_range (pos A - sz)) as Hr. unfold is_u64 in Hr.
    pose proof (wrap64_le (pos A - sz)). lia.
  - unfold ArenaPop, bind, load_arena. by rewrite Hl.
Qed.

Lemma ArenaSetPosBack_repositioned a p s r s' :
  ArenaSetPosBack a p s = Some (r, s') ->
  repositioned (state_ok s /\ is_u64 p) s s'.
Proof.
  destruct (hdr s !! a) as [A|] eqn:Hl.
  - rewrite (ArenaSetPosBack_live a A s Hl).
    destruct (Z.gtb_spec p (pos A)); intros [= _ <-]; [by left|].
    apply repositioned_put; [done|]. intros [Hok Hp].
    specialize (Hok a A Hl). unfold cursor_ok, is_u64 in *. lia.
  - unfold ArenaSetPosBack, bind, load_arena. by rewrite Hl.
Qed.

Lemma ArenaClear_repositioned a s u s' :
  ArenaClear a s = Some (u, s') -> repositioned (state_ok s) s s'.
Proof.
  destruct (hdr s !! a) as [A|] eqn:Hl.
  - rewrite (ArenaClear_live a A s Hl). intros [= _ <-].
    apply repositioned_put; [done|]. intros Hok.
    specialize (Hok a A Hl). unfold cursor_ok in Hok. lia.
  - unfold ArenaClear, store_pos. by rewrite Hl.
Qed.

Lemma ArenaScratchEnd_repositioned t s u s' :
  ArenaScratchEnd t s = Some (u, s') -> repositioned (temp_ok s t) s s'.
Proof.
  unfold ArenaScratchEnd.
  destruct (temp_arena t =? NULL); [intros [= _ <-]; by left|].
  destruct (hdr s !! temp_arena t) as [A|] eqn:Hl.
  - rewrite (store_pos_live _ A s Hl). intros [= _ <-].
    apply repositioned_put; [done|]. intros Hok. by apply Hok.
  - unfold store_pos. by rewrite Hl.
Qed.

Lemma repositioned_regions P s s' :
  repositioned P s s' -> regions s' = regions s.
Proof.
  unfold regions. intros [->|(a & A & v & Hl & -> & _)]; [done|].
  rewrite fmap_insert. apply insert_id.
  rewrite lookup_fmap, Hl. done.
Qed.

Lemma repositioned_state_ok (P : Prop) s s' :
  P -> repositioned P s s' -> state_ok s -> state_ok s'.
Proof.
  intros HP [H|(a & A & v & Hl & H & Hv)] Hok b B; rewrite H; [apply Hok|].
  rewrite lookup_insert. case_decide as Hab.
  - intros [= <-]. unfold cursor_ok. simpl. auto.
  - apply Hok.
Qed.

Lemma repositioned_temp_ok P s s' t :
  repositioned P s s' -> temp_ok s t -> temp_ok s' t.
Proof.
  intros [H|(a & A & v & Hl & H & _)] Hok B; rewrite H; [apply Hok|].
  rewrite lookup_insert. case_decide as Hab.
  - intros [= <-]. simpl. apply Hok. by rewrite <- Hab.
  - apply Hok.
Qed.

Lemma regions_lookup s s' a A :
  regions s' = regions s -> hdr s !! a = Some A ->
  exists A', hdr s' !! a = Some A' /\ base A' = base A /\ size A' = size A.
Proof.
  intros Hr Hl. apply (f_equal (fun m => m !! a)) in Hr.
  unfold regions in Hr. rewrite !lookup_fmap, Hl in Hr.
  destruct (hdr s' !! a) as [A'|]; [|done].
  exists A'. injection Hr as Hb Hs. done.
Qed.

(** One operation moves at most one cursor, and keeps it within the
    capacity when the state and the checkpoints were in order. *)
Lemma run_op_repositioned o ts s ts' s' :
  run_op o ts s = Some (ts', s') ->
  repositioned (state_ok s /\ Forall (temp_ok s) ts /\ op_wf o) s s'.
Proof.
  destruct o as [a sz|a sz|a sz|a p|a|a|k]; simpl; unfold bind.
  - destruct (ArenaPush a sz s) as [[q s1]|] eqn:E; [|done].
    intros [= _ <-]. eapply repositioned_weaken;
      [|by eapply ArenaPush_repositioned]. done.
  - destruct (ArenaPushZeroInit a sz s) as [[q s1]|] eqn:E; [|done].
    intros [= _ <-]. eapply repositioned_weaken;
      [|by eapply ArenaPushZeroInit_repositioned]. done.
  - destruct (ArenaPop a sz s) as [[q s1]|] eqn:E; [|done].
    intros [= _ <-]. eapply repositioned_weaken;
      [|by eapply ArenaPop_repositioned]. tauto.
  - destruct (ArenaSetPosBack a p s) as [[q s1]|] eqn:E; [|done].
    intros [= _ <-]. eapply repositioned_weaken;
      [|by eapply ArenaSetPosBack_repositioned]. tauto.
  - destruct (ArenaClear a s) as [[q s1]|] eqn:E; [|done].
    intros [= _ <-]. eapply repositioned_weaken;
      [|by eapply ArenaClear_repositioned]. tauto.
  - unfold ArenaScratchBegin, bind, load_arena.
    destruct (hdr s !! a); [|done]. intros [= _ <-]. by left.
  - destruct (ts !! k) as [t|] eqn:Hk; [|done]. unfold bind.
    destruct (ArenaScratchEnd t s) as [[q s1]|] eqn:E; [|done].
    intros [= _ <-]. eapply repositioned_weaken;
      [|by eapply ArenaScratchEnd_repositioned].
    intros (_ & Hts & _). rewrite Forall_lookup in Hts. by eapply Hts.
Qed.

(** The checkpoints after one operation: those before it, and the one
    [ArenaScratchBegin] took, if any; all hold a position within the
    capacity. *)
Lemma run_op_temps o ts s ts' s' :
  run_op o ts s = Some (ts', s') ->
  state_ok s -> Forall (temp_ok s) ts -> Forall (temp_ok s) ts'.
Proof.
  intros Hrun Hok Hts.
  destruct o as [a sz|a sz|a sz|a p|a|a|k]; simpl in Hrun;
    unfold bind in Hrun.
  - destruct (ArenaPush a sz s) as [[q s1]|]; [|done]. by injection Hrun as <- _.
  - destruct (ArenaPushZeroInit a sz s) as [[q s1]|]; [|done].
    by injection Hrun as <- _.
  - destruct (ArenaPop a sz s) as [[q s1]|]; [|done]. by injection Hrun as <- _.
  - destruct (ArenaSetPosBack a p s) as [[q s1]|]; [|done].
    by injection Hrun as <- _.
  - destruct (ArenaClear a s) as [[q s1]|]; [|done]. by injection Hrun as <- _.
  - unfold ArenaScratchBegin, bind, load_arena in Hrun.
    destruct (hdr s !! a) as [A|] eqn:Hl; [|done].
    injection Hrun as <- _. apply Forall_app. split; [done|].
    apply Forall_singleton. intros B. simpl. rewrite Hl. intros [= <-].
    apply (Hok a A Hl).
  - destruct (ts !! k) as [t|]; [|done]. unfold bind in Hrun.
    destruct (ArenaScratchEnd t s) as [[q s1]|]; [|done].
    by injection Hrun as <- _.
Qed.

Lemma run_ops_regions ops ts s ts' s' :
  run_ops ops ts s = Some (ts', s') -> regions s' = regions s.
Proof.
  revert ts s. induction ops as [|o ops IH]; intros ts s; simpl.
  - by intros [= _ <-].
  - unfold bind. destruct (run_op o ts s) as [[ts1 s1]|] eqn:E; [|done].
    intros H. rewrite (IH _ _ H).
    eapply repositioned_regions, run_op_repositioned, E.
Qed.

Lemma run_ops_invariant ops ts s ts' s' :
  state_ok s -> Forall (temp_ok s) ts -> Forall op_wf ops ->
  run_ops ops ts s = Some (ts', s') ->
  state_ok s' /\ Forall (temp_ok s') ts'.
Proof.
  revert ts s. induction ops as [|o ops IH]; intros ts s Hok Hts Hwf; simpl.
  - by intros [= <- <-].
  - unfold bind. destruct (run_op o ts s) as [[ts1 s1]|] eqn:E; [|done].
    apply Forall_cons in Hwf as [Ho Hwf].
    pose proof (run_op_repositioned _ _ _ _ _ E) as Hstep.
    pose proof (run_op_temps _ _ _ _ _ E Hok Hts) as Hts1.
    apply IH; [|
      |done].
    + eapply repositioned_state_ok; [|exact Hstep|done]. done.
    + eapply Forall_impl; [exact Hts1|].
      intros t. by eapply repositioned_temp_ok.
Qed.

Lemma run_ops_app ops1 ops2 ts s :
  run_ops (ops1 ++ ops2) ts s =
  (let* ts1 := run_ops ops1 ts in run_ops ops2 ts1) s.
Proof.
  revert ts s. induction ops1 as [|o ops1 IH]; intros ts s; simpl; [done|].
  unfold bind. destruct (run_op o ts s) as [[ts1 s1]|]; [|done].
  rewrite IH. done.
Qed.

(** ** The cursor invariant *)

(** A reservation establishes the invariant for the new arena and keeps
    it for the others. *)
Lemma ArenaAlloc_state_ok os R s a s' :
  state_ok s -> ArenaAlloc os R s = Some (a, s') -> state_ok s'.
Proof.
  intros Hok. unfold ArenaAlloc.
  destruct ((R =? 0) || (R >? SIZE_MAX - sizeof_Arena));
    [by intros [= _ <-]|].
  unfold bind at 1, sysconf_PAGESIZE.
  destruct (os_pagesize os =? -1); [by intros [= _ <-]|].
  unfold bind at 1, mmap.
  destruct (os_mmap os _ _) as [mem|]; [|by intros [= _ <-]].
  unfold bind, install, ret. intros [= _ <-] b B. simpl.
  rewrite lookup_insert. case_decide.
  - intros [= <-]. unfold cursor_ok. simpl.
    pose proof (wrap64_range
                  (total_size_of R (os_pagesize os) - sizeof_Arena)) as Hr.
    unfold is_u64 in Hr. lia.
  - apply Hok.
Qed.

(** As long as no write leaves the mapped data bytes, the invariant
    holds: start from a state in which every cursor lies within its
    capacity, and run any sequence of pushes, zeroing pushes, pops,
    position resets, clears, and begins and ends of checkpoints taken
    along the way.  When the run is defined, then after every prefix of it
    each region still has its base and its capacity, and its cursor lies
    between 0 and the capacity. *)
Theorem cursor_within_capacity ops s :
  state_ok s -> Forall op_wf ops -> is_Some (run_ops ops [] s) ->
  forall n,
  exists ts1 s1,
    run_ops (take n ops) [] s = Some (ts1, s1) /\
    forall a A,
      hdr s !! a = Some A ->
      exists A1,
        hdr s1 !! a = Some A1 /\
        base A1 = base A /\ size A1 = size A /\
        0 <= pos A1 <= size A1.
Proof.
  intros Hok Hwf [[ts' s'] Hrun] n.
  rewrite <- (take_drop n ops), run_ops_app in Hrun. unfold bind in Hrun.
  destruct (run_ops (take n ops) [] s) as [[ts1 s1]|] eqn:E; [|done].
  exists ts1, s1. split; [done|]. intros a A Hl.
  destruct (regions_lookup s s1 a A (run_ops_regions _ _ _ _ _ E) Hl)
    as (A1 & Hl1 & Hb & Hs).
  destruct (run_ops_invariant (take n ops) [] s ts1 s1) as [Hok1 _];
    [done|done|by apply Forall_take|done|].
  exists A1. split; [done|]. split; [done|]. split; [done|].
  apply (Hok1 a A1 Hl1).
Qed.


(** ** Scratch checkpoints *)

(** C9: [ArenaScratchBegin] on a live arena returns a checkpoint and
    changes nothing; after any sequence of operations that runs from
    there, [ArenaScratchEnd] on that checkpoint returns, and the position
    of the arena is the one it had at the begin. *)
Theorem ArenaScratchEnd_restores a A s :
  a <> NULL -> hdr s !! a = Some A ->
  exists t,
    ArenaScratchBegin a s = Some (t, s) /\
    forall ops ts ts' s',
      run_ops ops ts s = Some (ts', s') ->
      exists s'',
        ArenaScratchEnd t s' = Some (tt, s'') /\
        pos_of a s'' = Some (pos A) /\
        regions s'' = regions s.
Proof.
  intros Ha Hl. exists (mkArenaTemp a (pos A)).
  split; [by apply ArenaScratchBegin_live|].
  intros ops ts ts' s' Hrun.
  pose proof (run_ops_regions _ _ _ _ _ Hrun) as Hr.
  destruct (regions_lookup s s' a A Hr Hl) as (A' & Hl' & _ & _).
  unfold ArenaScratchEnd. simpl.
  destruct (Z.eqb_spec a NULL); [done|].
  rewrite (store_pos_live a A' s' Hl').
  eexists. split; [done|]. split.
  - unfold pos_of. by rewrite put_arena_lookup.
  - rewrite <- Hr. eapply repositioned_regions.
    by apply (repositioned_put False).
Qed.

Lemma ArenaScratchEnd_restores_witness :
  exists t,
    ArenaScratchBegin arena0 state0 = Some (t, state0) /\
    forall ops ts ts' s',
      run_ops ops ts state0 = Some (ts', s') ->
      exists s'',
        ArenaScratchEnd t s' = Some (tt, s'') /\
        pos_of arena0 s'' = Some (pos (mkArena 65560 4072 0)) /\
        regions s'' = regions state0.
Proof.
  apply (ArenaScratchEnd_restores arena0 (mkArena 65560 4072 0) state0).
  - unfold arena0, NULL. lia.
  - vm_compute. reflexivity.
Defined.

(** * Further properties of the allocator *)

(** A computation whose value is known returns that value, in the state
    it ends in. *)
Lemma by_result {A} (r : option (A * State)) (x : A) (d : State) :
  result r = Some x ->
  r = Some (x, match r with Some (_, s) => s | None => d end).
Proof. destruct r as [[y s]|]; simpl; [by intros [= ->]|done]. Qed.

Lemma load_bytes_by_result p n s l :
  result (load_bytes p n s) = Some l -> load_bytes p n s = Some (l, s).
Proof.
  destruct (load_bytes p n s) as [[l1 s1]|] eqn:E; simpl; [|done].
  intros [= ->]. by rewrite (load_bytes_state _ _ _ _ _ E).
Qed.

Lemma load_u64_by_result p s v :
  result (load_u64 p s) = Some v -> load_u64 p s = Some (v, s).
Proof.
  unfold load_u64, bind.
  destruct (load_bytes p 8 s) as [[l1 s1]|] eqn:E; simpl; [|done].
  intros [= ->]. by rewrite (load_bytes_state _ _ _ _ _ E).
Qed.

Lemma put_arena_put_arena a B C s :
  put_arena a B (put_arena a C s) = put_arena a B s.
Proof.
  unfold put_arena, set_hdr. simpl. by rewrite insert_insert_eq.
Qed.

Lemma put_arena_data a B s : data (put_arena a B s) = data s.
Proof. done. Qed.

Lemma with_pos_same A : with_pos A (pos A) = A.
Proof. by destruct A. Qed.

Lemma with_pos_with_pos A v w : with_pos (with_pos A v) w = with_pos A w.
Proof. done. Qed.

(** ** ArenaSetPosBack *)

(** X1: [ArenaSetPosBack] returns [-1] and changes nothing exactly when the
    target lies beyond the current position; otherwise it returns [0] and
    the position is the target.  Either way the position does not grow and
    no data byte is written. *)
Theorem ArenaSetPosBack_only_retracts a A s p :
  hdr s !! a = Some A -> is_u64 p ->
  exists r s',
    ArenaSetPosBack a p s = Some (r, s') /\
    (r = -1 <-> pos A < p) /\
    (r = -1 -> s' = s) /\
    (r <> -1 -> r = 0 /\ pos_of a s' = Some p) /\
    (exists A', hdr s' !! a = Some A' /\ pos A' <= pos A /\
                base A' = base A /\ size A' = size A) /\
    data s' = data s.
Proof.
  intros Hl Hp. rewrite (ArenaSetPosBack_live a A s Hl).
  destruct (Z.gtb_spec p (pos A)) as [Hgt|Hle].
  - exists (-1), s. repeat split; try done; try lia.
    exists A. repeat split; [done|lia].
  - exists 0, (put_arena a (with_pos A p) s).
    repeat split; try done; try lia.
    + unfold pos_of. by rewrite put_arena_lookup.
    + exists (with_pos A p). rewrite put_arena_lookup. by repeat split.
Qed.

Lemma ArenaSetPosBack_only_retracts_witness :
  exists r s',
    ArenaSetPosBack arena0 0 state0 = Some (r, s') /\
    (r = -1 <-> pos (mkArena 65560 4072 0) < 0) /\
    (r = -1 -> s' = state0) /\
    (r <> -1 -> r = 0 /\ pos_of arena0 s' = Some 0) /\
    (exists A', hdr s' !! arena0 = Some A' /\
                pos A' <= pos (mkArena 65560 4072 0) /\
                base A' = base (mkArena 65560 4072 0) /\
                size A' = size (mkArena 65560 4072 0)) /\
    data s' = data state0.
Proof.
  apply (ArenaSetPosBack_only_retracts arena0 (mkArena 65560 4072 0) state0 0).
  - vm_compute. reflexivity.
  - unfold is_u64. lia.
Defined.

(** ** Push and pop undo each other *)

(** X2: a push that fits, followed by a pop of the same size, returns
    status [0] and leaves the machine exactly as it was before the push. *)
Theorem ArenaPush_then_ArenaPop a A s sz :
  a <> NULL -> hdr s !! a = Some A ->
  is_u64 (pos A) -> is_u64 (size A) -> 0 < sz <= size A - pos A ->
  (let* p := ArenaPush a sz in
   let* r := ArenaPop a sz in
   ret (p, r)) s
  = Some ((wrap64 (base A + (pos A + sz)), 0), s).
Proof.
  intros Ha Hl Hp Hs Hsz. unfold is_u64 in *. unfold bind at 1.
  rewrite (ArenaPush_live a A s Hl sz Ha).
  rewrite (wrap64_small (pos A + sz)) by (unfold is_u64; lia).
  destruct (Z.eqb_spec sz 0); [lia|]. simpl orb.
  destruct (Z.gtb_spec (pos A + sz) (size A)); [lia|].
  unfold bind.
  rewrite (ArenaPop_live a _ _ (put_arena_lookup a s _)). simpl pos.
  destruct (Z.gtb_spec sz (pos A + sz)); [lia|].
  replace (pos A + sz - sz) with (pos A) by lia.
  rewrite (wrap64_small (pos A)) by (unfold is_u64; lia).
  rewrite put_arena_put_arena, with_pos_with_pos, with_pos_same.
  by rewrite (put_arena_same a A s Hl).
Qed.

Lemma ArenaPush_then_ArenaPop_witness :
  (let* p := ArenaPush arena0 100 in
   let* r := ArenaPop arena0 100 in
   ret (p, r)) state0
  = Some ((wrap64 (base (mkArena 65560 4072 0)
                   + (pos (mkArena 65560 4072 0) + 100)), 0), state0).
Proof.
  apply (ArenaPush_then_ArenaPop arena0 (mkArena 65560 4072 0) state0 100).
  - unfold arena0, NULL. lia.
  - vm_compute. reflexivity.
  - unfold is_u64. simpl. lia.
  - unfold is_u64. simpl. lia.
  - simpl. lia.
Defined.

(** X3: a pop of [sz > 0] bytes followed by a push of [sz] bytes, on an
    arena whose position is within its capacity, leaves the machine as it
    was before the pop; the push returns the address of the old position. *)
Theorem ArenaPop_then_ArenaPush a A s sz :
  a <> NULL -> hdr s !! a = Some A ->
  cursor_ok A -> is_u64 (size A) -> 0 < sz <= pos A ->
  (let* r := ArenaPop a sz in
   let* p := ArenaPush a sz in
   ret (r, p)) s
  = Some ((0, wrap64 (base A + pos A)), s).
Proof.
  intros Ha Hl Hok Hs Hsz. unfold is_u64, cursor_ok in *. unfold bind at 1.
  rewrite (ArenaPop_live a A s Hl).
  destruct (Z.gtb_spec sz (pos A)); [lia|].
  rewrite (wrap64_small (pos A - sz)) by (unfold is_u64; lia).
  unfold bind.
  rewrite (ArenaPush_live a _ _ (put_arena_lookup a s _) sz Ha).
  simpl pos. simpl size. simpl base.
  replace (pos A - sz + sz) with (pos A) by lia.
  rewrite (wrap64_small (pos A)) by (unfold is_u64; lia).
  destruct (Z.eqb_spec sz 0); [lia|]. simpl orb.
  destruct (Z.gtb_spec (pos A) (size A)); [lia|].
  rewrite put_arena_put_arena, with_pos_with_pos, with_pos_same.
  by rewrite (put_arena_same a A s Hl).
Qed.

Lemma ArenaPop_then_ArenaPush_witness :
  (let* r := ArenaPop arena0 40 in
   let* p := ArenaPush arena0 40 in
   ret (r, p)) state100
  = Some ((0, wrap64 (base (mkArena 65560 4072 100)
                      + pos (mkArena 65560 4072 100))), state100).
Proof.
  apply (ArenaPop_then_ArenaPush arena0 (mkArena 65560 4072 100) state100 40).
  - unfold arena0, NULL. lia.
  - vm_compute. reflexivity.
  - unfold cursor_ok. simpl. lia.
  - unfold is_u64. simpl. lia.
  - simpl. lia.
Defined.

(** ** Checkpoints *)

(** X4: ending a checkpoint twice is the same as ending it once, and
    ending a checkpoint that carries no arena does nothing. *)
Theorem ArenaScratchEnd_twice :
  (forall t s,
      (ArenaScratchEnd t;; ArenaScratchEnd t) s = ArenaScratchEnd t s) /\
  (forall p s, ArenaScratchEnd (mkArenaTemp NULL p) s = Some (tt, s)).
Proof.
  split; [|done]. intros t s. unfold bind, ArenaScratchEnd.
  destruct (temp_arena t =? NULL); [done|].
  destruct (hdr s !! temp_arena t) as [A|] eqn:Hl.
  - rewrite (store_pos_live _ A s Hl).
    rewrite (store_pos_live _ _ _ (put_arena_lookup _ s _)).
    by rewrite put_arena_put_arena.
  - unfold store_pos. by rewrite Hl.
Qed.

(** X5: where the position has not dropped below a checkpoint,
    [ArenaScratchEnd] on it and [ArenaSetPosBack] to its position lead to
    the same state.  Where it has, [ArenaSetPosBack] refuses and changes
    nothing, while [ArenaScratchEnd] moves the position forward to the
    checkpoint. *)
Theorem ArenaScratchEnd_and_ArenaSetPosBack a A s p :
  a <> NULL -> hdr s !! a = Some A ->
  ArenaScratchEnd (mkArenaTemp a p) s
  = Some (tt, put_arena a (with_pos A p) s) /\
  (p <= pos A ->
   ArenaSetPosBack a p s = Some (0, put_arena a (with_pos A p) s)) /\
  (pos A < p ->
   ArenaSetPosBack a p s = Some (-1, s) /\
   pos_of a s = Some (pos A) /\
   pos_of a (put_arena a (with_pos A p) s) = Some p).
Proof.
  intros Ha Hl. split; [|split].
  - unfold ArenaScratchEnd. simpl.
    destruct (Z.eqb_spec a NULL); [done|]. by apply store_pos_live.
  - intros Hp. rewrite (ArenaSetPosBack_live a A s Hl).
    destruct (Z.gtb_spec p (pos A)); [lia|done].
  - intros Hp. rewrite (ArenaSetPosBack_live a A s Hl).
    destruct (Z.gtb_spec p (pos A)); [|lia].
    split; [done|]. unfold pos_of. by rewrite Hl, put_arena_lookup.
Qed.

Lemma ArenaScratchEnd_and_ArenaSetPosBack_witness :
  ArenaScratchEnd (mkArenaTemp arena0 300) state100
  = Some (tt, put_arena arena0 (with_pos (mkArena 65560 4072 100) 300)
                state100) /\
  (300 <= pos (mkArena 65560 4072 100) ->
   ArenaSetPosBack arena0 300 state100
   = Some (0, put_arena arena0 (with_pos (mkArena 65560 4072 100) 300)
                state100)) /\
  (pos (mkArena 65560 4072 100) < 300 ->
   ArenaSetPosBack arena0 300 state100 = Some (-1, state100) /\
   pos_of arena0 state100 = Some (pos (mkArena 65560 4072 100)) /\
   pos_of arena0
     (put_arena arena0 (with_pos (mkArena 65560 4072 100) 300) state100)
   = Some 300).
Proof.
  apply (ArenaScratchEnd_and_ArenaSetPosBack arena0
           (mkArena 65560 4072 100) state100 300).
  - unfold arena0, NULL. lia.
  - vm_compute. reflexivity.
Defined.

(** ** Which operations write memory *)

Lemma store_pos_data a v s u s' :
  store_pos a v s = Some (u, s') -> data s' = data s /\ oslog s' = oslog s.
Proof.
  unfold store_pos. destruct (hdr s !! a); [|done]. by intros [= _ <-].
Qed.

Lemma ArenaPush_data a sz s p s' :
  ArenaPush a sz s = Some (p, s') -> data s' = data s /\ oslog s' = oslog s.
Proof.
  unfold ArenaPush. destruct ((a =? NULL) || (sz =? 0));
    [by intros [= _ <-]|].
  unfold bind, load_arena. destruct (hdr s !! a) as [A|]; [|done].
  destruct (wrap64 (pos A + sz) >? size A); [by intros [= _ <-]|].
  destruct (store_pos a _ s) as [[u s1]|] eqn:E; [|done].
  apply store_pos_data in E. destruct (hdr s1 !! a); [|done].
  by intros [= _ <-].
Qed.

Lemma run_op_data o ts s ts' s' :
  no_zero_init o -> run_op o ts s = Some (ts', s') ->
  data s' = data s /\ oslog s' = oslog s.
Proof.
  destruct o as [a sz|a sz|a sz|a p|a|a|k]; simpl; intros Hno; [|done|..];
    unfold bind.
  - destruct (ArenaPush a sz s) as [[q s1]|] eqn:E; [|done].
    intros [= _ <-]. by eapply ArenaPush_data.
  - unfold ArenaPop, bind, load_arena.
    destruct (hdr s !! a) as [A|]; [|done].
    destruct (sz >? pos A); [by intros [= _ <-]|].
    destruct (store_pos a _ s) as [[u s1]|] eqn:E; [|done].
    intros [= _ <-]. by eapply store_pos_data.
  - unfold ArenaSetPosBack, bind, load_arena.
    destruct (hdr s !! a) as [A|]; [|done].
    destruct (p >? pos A); [by intros [= _ <-]|].
    destruct (store_pos a _ s) as [[u s1]|] eqn:E; [|done].
    intros [= _ <-]. by eapply store_pos_data.
  - unfold ArenaClear.
    destruct (store_pos a _ s) as [[u s1]|] eqn:E; [|done].
    intros [= _ <-]. by eapply store_pos_data.
  - unfold ArenaScratchBegin, bind, load_arena.
    destruct (hdr s !! a); [|done]. by intros [= _ <-].
  - destruct (ts !! k) as [t|]; [|done]. unfold bind, ArenaScratchEnd.
    destruct (temp_arena t =? NULL); [by intros [= _ <-]|].
    destruct (store_pos _ _ s) as [[u s1]|] eqn:E; [|done].
    intros [= _ <-]. by eapply store_pos_data.
Qed.

(** X6: a run of pushes, pops, position resets, clears and checkpoint
    begins and ends writes no data byte: what was in the arena stays
    readable, and popped or cleared memory is not zeroed.  It makes no call
    to the operating system either. *)
Theorem run_ops_keep_memory ops ts s ts' s' :
  Forall no_zero_init ops -> run_ops ops ts s = Some (ts', s') ->
  data s' = data s /\ oslog s' = oslog s.
Proof.
  revert ts s. induction ops as [|o ops IH]; intros ts s Hno; simpl.
  - by intros [= _ <-].
  - apply Forall_cons in Hno as [Ho Hno]. unfold bind.
    destruct (run_op o ts s) as [[ts1 s1]|] eqn:E; [|done].
    intros H. destruct (IH _ _ Hno H) as [-> ->].
    by eapply run_op_data.
Qed.

Lemma run_ops_keep_memory_witness :
  data state_ops1 = data state100 /\ oslog state_ops1 = oslog state100.
Proof.
  apply (run_ops_keep_memory ops1 [] state100 [mkArenaTemp arena0 70]
           state_ops1).
  - repeat constructor.
  - apply by_result. vm_compute. reflexivity.
Defined.

(** ** ArenaPushZeroInit *)

Lemma store_bytes_above bs p s u s' q :
  store_bytes p bs s = Some (u, s') -> p + Z.of_nat (List.length bs) <= q ->
  data s' !! q = data s !! q.
Proof.
  revert p s. induction bs as [|b bs IH]; intros p s; simpl List.length.
  - by intros [= _ <-].
  - simpl. unfold bind, store_byte. destruct (data s !! p); [|done].
    intros H Hq. rewrite (IH _ _ H) by lia. simpl.
    apply lookup_insert_ne. lia.
Qed.

Lemma store_bytes_outside bs p s u s' q :
  store_bytes p bs s = Some (u, s') ->
  q < p \/ p + Z.of_nat (List.length bs) <= q ->
  data s' !! q = data s !! q.
Proof.
  intros H [Hq|Hq]; [by eapply store_bytes_below|by eapply store_bytes_above].
Qed.



(** ** The array macros *)

Lemma check_overflow_iff a b :
  is_u64 a -> is_u64 b ->
  ARENA_CHECK_OVERFLOW a b = true <-> SIZE_MAX < a * b.
Proof.
  unfold is_u64, ARENA_CHECK_OVERFLOW. intros Ha Hb.
  assert (HM : 0 <= SIZE_MAX) by (unfold SIZE_MAX; lia).
  destruct (Z.gtb_spec a 0) as [Hpos|Hz]; simpl.
  - pose proof (Z.div_mod SIZE_MAX a ltac:(lia)) as Hdm.
    pose proof (Z.mod_pos_bound SIZE_MAX a ltac:(lia)) as Hmb.
    destruct (Z.gtb_spec b (SIZE_MAX / a)) as [Hgt|Hle]; split; try done.
    + intros _. nia.
    + intros H. exfalso. nia.
  - split; [done|]. assert (a = 0) as -> by lia. lia.
Qed.

(** X8: for sizes and counts of type [size_t], [PushArray] and
    [PushArrayZeroInit] refuse, touching nothing, exactly when the product
    [sizeof(type) * count] exceeds [SIZE_MAX]; otherwise they push the
    exact product, never a wrapped one. *)
Theorem PushArray_checks_product a esz cnt s :
  is_u64 esz -> is_u64 cnt ->
  PushArray a esz cnt s
  = (if decide (SIZE_MAX < esz * cnt) then Some (NULL, s)
     else ArenaPush a (esz * cnt) s) /\
  PushArrayZeroInit a esz cnt s
  = (if decide (SIZE_MAX < esz * cnt) then Some (NULL, s)
     else ArenaPushZeroInit a (esz * cnt) s).
Proof.
  intros He Hc. pose proof (check_overflow_iff esz cnt He Hc) as Hiff.
  unfold PushArray, PushArrayZeroInit.
  destruct (ARENA_CHECK_OVERFLOW esz cnt); case_decide as Hbig.
  - done.
  - exfalso. apply Hbig. by apply Hiff.
  - exfalso. by apply Hiff in Hbig.
  - rewrite wrap64_small; [done|].
    unfold is_u64, SIZE_MAX in *. nia.
Qed.

Lemma PushArray_checks_product_witness :
  PushArray arena0 16 (2 ^ 60) state0
  = (if decide (SIZE_MAX < 16 * 2 ^ 60) then Some (NULL, state0)
     else ArenaPush arena0 (16 * 2 ^ 60) state0) /\
  PushArrayZeroInit arena0 16 (2 ^ 60) state0
  = (if decide (SIZE_MAX < 16 * 2 ^ 60) then Some (NULL, state0)
     else ArenaPushZeroInit arena0 (16 * 2 ^ 60) state0).
Proof.
  apply (PushArray_checks_product arena0 16 (2 ^ 60) state0).
  - unfold is_u64. lia.
  - unfold is_u64. lia.
Defined.

(** X9: [PushArray] of an array that fits, followed by [PopArray] with the
    same element size and count, returns status [0] and leaves the machine
    as it was before the push. *)
Theorem PushArray_then_PopArray a A s esz cnt :
  a <> NULL -> hdr s !! a = Some A ->
  is_u64 (pos A) -> is_u64 (size A) -> is_u64 esz -> is_u64 cnt ->
  0 < esz * cnt <= size A - pos A ->
  (let* p := PushArray a esz cnt in
   let* r := PopArray a esz cnt in
   ret (p, r)) s
  = Some ((wrap64 (base A + (pos A + esz * cnt)), 0), s).
Proof.
  intros Ha Hl Hp Hs He Hc Hfit.
  assert (Hn : is_u64 (esz * cnt)) by (unfold is_u64 in *; lia).
  assert (Hno : ARENA_CHECK_OVERFLOW esz cnt = false).
  { destruct (ARENA_CHECK_OVERFLOW esz cnt) eqn:E; [|done].
    apply check_overflow_iff in E; [|done..].
    unfold is_u64, SIZE_MAX in *. lia. }
  unfold PushArray, PopArray. rewrite Hno, (wrap64_small _ Hn).
  set (n := esz * cnt) in *. unfold is_u64 in *. unfold bind at 1.
  rewrite (ArenaPush_live a A s Hl n Ha).
  rewrite (wrap64_small (pos A + n)) by (unfold is_u64; lia).
  destruct (Z.eqb_spec n 0); [lia|]. simpl orb.
  destruct (Z.gtb_spec (pos A + n) (size A)); [lia|].
  unfold bind.
  rewrite (ArenaPop_live a _ _ (put_arena_lookup a s _)). simpl pos.
  destruct (Z.gtb_spec n (pos A + n)); [lia|].
  replace (pos A + n - n) with (pos A) by lia.
  rewrite (wrap64_small (pos A)) by (unfold is_u64; lia).
  rewrite put_arena_put_arena, with_pos_with_pos, with_pos_same.
  by rewrite (put_arena_same a A s Hl).
Qed.

Lemma PushArray_then_PopArray_witness :
  (let* p := PushArray arena0 16 10 in
   let* r := PopArray arena0 16 10 in
   ret (p, r)) state0
  = Some ((wrap64 (base (mkArena 65560 4072 0)
                   + (pos (mkArena 65560 4072 0) + 16 * 10)), 0), state0).
Proof.
  apply (PushArray_then_PopArray arena0 (mkArena 65560 4072 0) state0 16 10).
  - unfold arena0, NULL. lia.
  - vm_compute. reflexivity.
  - unfold is_u64. simpl. lia.
  - unfold is_u64. simpl. lia.
  - unfold is_u64. lia.
  - unfold is_u64. lia.
  - simpl. lia.
Defined.

(** X10: [PopArray] has no overflow check.  A count whose product with
    the element size exceeds [SIZE_MAX], which [PushArray] refuses, is
    accepted by [PopArray] whenever the product reduced modulo [2^64] is
    within the position: it returns [0] and pops that reduced amount. *)
Theorem PopArray_unchecked a A s esz cnt :
  hdr s !! a = Some A -> is_u64 (pos A) -> is_u64 esz -> is_u64 cnt ->
  SIZE_MAX < esz * cnt -> wrap64 (esz * cnt) <= pos A ->
  PushArray a esz cnt s = Some (NULL, s) /\
  PopArray a esz cnt s
  = Some (0, put_arena a (with_pos A (pos A - wrap64 (esz * cnt))) s).
Proof.
  intros Hl Hp He Hc Hbig Hle. split.
  - unfold PushArray.
    by rewrite (proj2 (check_overflow_iff esz cnt He Hc) Hbig).
  - unfold PopArray. rewrite (ArenaPop_live a A s Hl).
    pose proof (wrap64_range (esz * cnt)) as Hr. unfold is_u64 in *.
    destruct (Z.gtb_spec (wrap64 (esz * cnt)) (pos A)); [lia|].
    by rewrite (wrap64_small (pos A - _)) by (unfold is_u64; lia).
Qed.

Lemma PopArray_unchecked_witness :
  PushArray arena0 16 (2 ^ 60 + 1) state100 = Some (NULL, state100) /\
  PopArray arena0 16 (2 ^ 60 + 1) state100
  = Some (0, put_arena arena0
               (with_pos (mkArena 65560 4072 100)
                  (pos (mkArena 65560 4072 100)
                   - wrap64 (16 * (2 ^ 60 + 1)))) state100).
Proof.
  apply (PopArray_unchecked arena0 (mkArena 65560 4072 100) state100
           16 (2 ^ 60 + 1)).
  - vm_compute. reflexivity.
  - unfold is_u64. simpl. lia.
  - unfold is_u64. lia.
  - unfold is_u64. lia.
  - unfold SIZE_MAX. lia.
  - vm_compute. discriminate.
Defined.

(** ** Reserving and releasing *)

Lemma total_size_of_range sz page_size : is_u64 (total_size_of sz page_size).
Proof.
  unfold total_size_of.
  set (x := wrap64 (sz + sizeof_Arena + page_size - 1)).
  unfold wrap64 at 1. rewrite <- (Z.land_ones _ 64) by lia.
  rewrite Z.land_assoc, Z.land_ones by lia.
  apply wrap64_range.
Qed.

(** The outcomes of [ArenaAlloc]. *)
Lemma ArenaAlloc_cases os R s :
  let T := total_size_of R (os_pagesize os) in
  (ArenaAlloc os R s = Some (NULL, s)) \/
  (ArenaAlloc os R s = Some (NULL, log_call Sysconf s)) \/
  (os_mmap os (log_call Sysconf s) T = None /\
   ArenaAlloc os R s
   = Some (NULL, log_call (Mmap T) (log_call Sysconf s))) \/
  (exists mem,
      os_mmap os (log_call Sysconf s) T = Some mem /\
      ArenaAlloc os R s
      = Some (mem,
              mkState (<[mem := mkArena (wrap64 (mem + sizeof_Arena))
                                        (wrap64 (T - sizeof_Arena)) 0]>
                         (hdr s))
                      (map_zero (mem + sizeof_Arena)
                                (Z.to_nat (T - sizeof_Arena)) (data s))
                      (Mmap T :: Sysconf :: oslog s))).
Proof.
  intros T. remember (ArenaAlloc os R s) as r eqn:Hr.
  unfold ArenaAlloc in Hr.
  destruct ((R =? 0) || (R >? SIZE_MAX - sizeof_Arena));
    [left; by rewrite Hr|].
  unfold bind at 1, sysconf_PAGESIZE in Hr.
  destruct (os_pagesize os =? -1); [right; left; by rewrite Hr|].
  unfold bind at 1, mmap in Hr. fold T in Hr.
  destruct (os_mmap os (log_call Sysconf s) T) as [mem|] eqn:E.
  - right; right; right. exists mem. split; [done|]. by rewrite Hr.
  - right; right; left. split; [done|]. by rewrite Hr.
Qed.

Lemma map_zero_outside n p d q :
  q < p \/ p + Z.of_nat n <= q -> map_zero p n d !! q = d !! q.
Proof.
  revert p. induction n as [|n IH]; intros p Hq; [done|]. simpl.
  rewrite lookup_insert_ne by lia. apply IH. lia.
Qed.

(** X11: what [ArenaAlloc] does, case by case.  A request of 0 bytes or
    of more than [SIZE_MAX] minus the header size returns [NULL] in an
    unchanged state.  Otherwise the page size is queried; when the answer
    is [-1] the result is [NULL] and no mapping was asked for.  Otherwise
    [mmap] is called once, with the rounded total; when it fails the
    result is [NULL] and no header or data byte has changed; when it
    grants an address, that address is returned, the header is installed
    there with its base right after the header, a capacity of the total
    minus the header size and position 0, the other headers are kept, and
    no data byte outside the new mapping has changed. *)
Theorem ArenaAlloc_all_or_nothing os R s :
  exists a s',
    ArenaAlloc os R s = Some (a, s') /\
    (((R = 0 \/ SIZE_MAX - sizeof_Arena < R) /\ a = NULL /\ s' = s) \/
     (R <> 0 /\ R <= SIZE_MAX - sizeof_Arena /\ os_pagesize os = -1 /\
      a = NULL /\ s' = log_call Sysconf s) \/
     (R <> 0 /\ R <= SIZE_MAX - sizeof_Arena /\ os_pagesize os <> -1 /\
      os_mmap os (log_call Sysconf s) (total_size_of R (os_pagesize os))
      = None /\
      a = NULL /\
      s' = log_call (Mmap (total_size_of R (os_pagesize os)))
             (log_call Sysconf s)) \/
     (R <> 0 /\ R <= SIZE_MAX - sizeof_Arena /\ os_pagesize os <> -1 /\
      os_mmap os (log_call Sysconf s) (total_size_of R (os_pagesize os))
      = Some a /\
      hdr s'
      = <[a := mkArena (wrap64 (a + sizeof_Arena))
                       (wrap64 (total_size_of R (os_pagesize os)
                                - sizeof_Arena)) 0]> (hdr s) /\
      (forall q,
          q < a + sizeof_Arena \/
          a + total_size_of R (os_pagesize os) <= q ->
          data s' !! q = data s !! q) /\
      oslog s' = Mmap (total_size_of R (os_pagesize os)) :: Sysconf
                   :: oslog s)).
Proof.
  unfold ArenaAlloc.
  destruct (Z.eqb_spec R 0) as [HR0|HR0].
  { exists NULL, s. split; [done|]. left. auto. }
  destruct (Z.gtb_spec R (SIZE_MAX - sizeof_Arena)) as [Hbig|Hfit].
  { exists NULL, s. split; [done|]. left. split; [right; lia|done]. }
  cbv beta iota delta [orb]. unfold bind at 1, sysconf_PAGESIZE.
  cbv beta iota.
  destruct (Z.eqb_spec (os_pagesize os) (-1)) as [Hpage|Hpage].
  { exists NULL, (log_call Sysconf s). split; [done|]. right; left.
    by repeat split. }
  unfold bind at 1, mmap. cbv beta iota.
  set (T := total_size_of R (os_pagesize os)).
  destruct (os_mmap os (log_call Sysconf s) T) as [mem|] eqn:Hmem.
  - unfold bind, install, ret.
    eexists mem, _. split; [reflexivity|]. right; right; right. simpl.
    split; [done|]. split; [done|]. split; [done|]. split; [done|].
    split; [done|]. split; [|done].
    intros q Hq. apply map_zero_outside. unfold sizeof_Arena in *. lia.
  - exists NULL, (log_call (Mmap T) (log_call Sysconf s)).
    split; [done|]. right; right; left. by repeat split.
Qed.

(** X12: [ArenaRelease] on a null pointer returns [-1] and makes no call.
    On an arena that [ArenaAlloc] returned, after any run of pushes, pops,
    position resets, clears and checkpoint begins and ends (operations
    that write no memory), it calls [munmap] with exactly the address the
    mapping got and the length it was asked with, and returns what
    [munmap] returns. *)
Theorem ArenaRelease_unmaps_reservation os R s a s1 ops ts ts' s2 munmap :
  ArenaAlloc os R s = Some (a, s1) -> a <> NULL -> is_u64 a ->
  Forall no_zero_init ops -> run_ops ops ts s1 = Some (ts', s2) ->
  ArenaRelease munmap NULL s2 = Some (-1, s2) /\
  ArenaRelease munmap a s2
  = munmap a (total_size_of R (os_pagesize os)) s2 /\
  exists len, head (oslog s1) = Some (Mmap len) /\
              len = total_size_of R (os_pagesize os).
Proof.
  intros Halloc Ha Hu _ Hrun. split; [done|].
  set (T := total_size_of R (os_pagesize os)).
  assert (Hs1 : hdr s1 !! a
                = Some (mkArena (wrap64 (a + sizeof_Arena))
                                (wrap64 (T - sizeof_Arena)) 0) /\
                head (oslog s1) = Some (Mmap T)).
  { destruct (ArenaAlloc_cases os R s) as [H|[H|[[Hm H]|(mem & Hm & H)]]];
      rewrite H in Halloc; injection Halloc as <- <-; try done.
    simpl. split; [apply lookup_insert_eq|done]. }
  destruct Hs1 as [Hl1 Hlog]. split; [|by exists T].
  destruct (regions_lookup s1 s2 a _ (run_ops_regions _ _ _ _ _ Hrun) Hl1)
    as (A2 & Hl2 & Hb & Hsz). simpl in Hb, Hsz.
  unfold ArenaRelease. destruct (Z.eqb_spec a NULL); [done|].
  unfold bind. rewrite (load_arena_live a A2 s2 Hl2), Hb, Hsz.
  pose proof (total_size_of_range R (os_pagesize os)) as HT. fold T in HT.
  assert (wrap64 (wrap64 (a + sizeof_Arena) - sizeof_Arena) = a) as ->.
  { unfold wrap64, sizeof_Arena, is_u64 in *.
    rewrite Zminus_mod_idemp_l.
    replace (a + 24 - 24) with a by lia. by apply Z.mod_small. }
  assert (wrap64 (wrap64 (T - sizeof_Arena) + sizeof_Arena) = T) as ->.
  { unfold wrap64, sizeof_Arena, is_u64 in *.
    rewrite Zplus_mod_idemp_l.
    replace (T - 24 + 24) with T by lia. by apply Z.mod_small. }
  by destruct (munmap a T s2) as [[r s3]|].
Qed.

Lemma ArenaRelease_unmaps_reservation_witness :
  ArenaRelease munmap_ok NULL state100 = Some (-1, state100) /\
  ArenaRelease munmap_ok arena0 state100
  = munmap_ok arena0 (total_size_of 64 (os_pagesize os4k)) state100 /\
  exists len, head (oslog state0) = Some (Mmap len) /\
              len = total_size_of 64 (os_pagesize os4k).
Proof.
  apply (ArenaRelease_unmaps_reservation os4k 64 empty_state arena0 state0
           [OpPush arena0 100] [] [] state100 munmap_ok).
  - apply by_result. vm_compute. reflexivity.
  - unfold arena0, NULL. lia.
  - unfold is_u64, arena0. lia.
  - repeat constructor.
  - refine (eq_trans (by_result _ _ state0 _) _).
    + vm_compute. reflexivity.
    + reflexivity.
Defined.

(** ** Failed pushes *)

Lemma ArenaPush_null_unchanged a A s sz s' :
  hdr s !! a = Some A -> valid_region A ->
  ArenaPush a sz s = Some (NULL, s') -> s' = s.
Proof.
  intros Hl (Hb & Hp & Hend).
  destruct (Z.eqb_spec a NULL) as [->|Ha].
  - unfold ArenaPush. simpl. by intros [= <-].
  - rewrite (ArenaPush_live a A s Hl sz Ha).
    destruct (sz =? 0); simpl; [by intros [= <-]|].
    destruct (Z.gtb_spec (wrap64 (pos A + sz)) (size A));
      [by intros [= <-]|].
    intros [= Hnull _]. exfalso.
    pose proof (wrap64_range (pos A + sz)) as Hr. unfold is_u64 in Hr.
    rewrite wrap64_small in Hnull by (unfold is_u64; lia).
    unfold NULL in Hnull. lia.
Qed.

(** X13: on a region that lies in the address space, a push that returns
    [NULL] has changed nothing, whichever of [ArenaPush],
    [ArenaPushZeroInit], [PushArray] and [PushStr] it was: no position
    moved and no byte was written. *)
Theorem failed_push_changes_nothing a A s :
  hdr s !! a = Some A -> valid_region A ->
  (forall sz s', ArenaPush a sz s = Some (NULL, s') -> s' = s) /\
  (forall sz s', ArenaPushZeroInit a sz s = Some (NULL, s') -> s' = s) /\
  (forall esz cnt s', PushArray a esz cnt s = Some (NULL, s') -> s' = s) /\
  (forall str s', PushStr a str s = Some (NULL, s') -> s' = s).
Proof.
  intros Hl Hv. split; [|split; [|split]].
  - intros sz s'. by apply (ArenaPush_null_unchanged a A).
  - intros sz s' H. apply ArenaPushZeroInit_fails_iff in H.
    by apply (ArenaPush_null_unchanged a A s sz).
  - intros esz cnt s'. unfold PushArray.
    destruct (ARENA_CHECK_OVERFLOW esz cnt); [by intros [= <-]|].
    by apply (ArenaPush_null_unchanged a A).
  - intros [str|] s'; unfold PushStr; [|by intros [= <-]].
    destruct (a =? NULL); [by intros [= <-]|].
    destruct (strlen str =? SIZE_MAX); [by intros [= <-]|].
    unfold bind at 1.
    destruct (ArenaPush a _ s) as [[res s1]|] eqn:Hpush; [|done].
    destruct (Z.eqb_spec res NULL) as [->|Hres].
    + intros [= <-]. by eapply (ArenaPush_null_unchanged a A s).
    + unfold bind. destruct (store_u64 res _ s1) as [[u2 s2]|]; [|done].
      destruct (memcpy _ _ _ s2) as [[u3 s3]|]; [|done].
      by intros [= ? _].
Qed.

Lemma failed_push_changes_nothing_witness :
  (forall sz s', ArenaPush arena0 sz state100 = Some (NULL, s') ->
                 s' = state100) /\
  (forall sz s', ArenaPushZeroInit arena0 sz state100 = Some (NULL, s') ->
                 s' = state100) /\
  (forall esz cnt s', PushArray arena0 esz cnt state100 = Some (NULL, s') ->
                      s' = state100) /\
  (forall str s', PushStr arena0 str state100 = Some (NULL, s') ->
                  s' = state100).
Proof.
  apply (failed_push_changes_nothing arena0 (mkArena 65560 4072 100)
           state100).
  - vm_compute. reflexivity.
  - unfold valid_region. simpl. lia.
Defined.

(** ** The string record *)

(** X14: when [PushStr] returns a record that lies in the address space,
    on an arena with room for header and string, the record reads back
    with the length of the string and its bytes up to the terminator; only
    the bytes of the record were written, so no terminator is stored; the
    position advanced by the header size plus the length; and [PopStr] on
    the record brings the position back to where it was, writing
    nothing. *)
Theorem PushStr_record a A str s r s' :
  hdr s !! a = Some A -> is_u64 (pos A) -> is_u64 (size A) ->
  sizeof_Str + strlen str <= size A - pos A ->
  PushStr a (Some str) s = Some (r, s') -> r <> NULL ->
  r + sizeof_Str + strlen str < 2 ^ 64 ->
  Str_size r s' = Some (strlen str, s') /\
  Str_string r s' = Some (take (Z.to_nat (strlen str)) str, s') /\
  (forall q, q < r \/ r + sizeof_Str + strlen str <= q ->
             data s' !! q = data s !! q) /\
  pos_of a s' = Some (pos A + sizeof_Str + strlen str) /\
  exists s'',
    PopStr a r s' = Some (tt, s'') /\
    pos_of a s'' = Some (pos A) /\ data s'' = data s'.
Proof.
  intros Hl Hp Hs Hfit Hrun Hr Hend.
  pose proof (strlen_length str) as Hlen.
  unfold sizeof_Str, is_u64 in *.
  destruct (PushStr_reads_back a str s r s' Hrun Hr) as [Hsize Hstring];
    [unfold sizeof_Str; lia|lia|].
  split; [done|]. split; [done|].
  unfold PushStr, sizeof_Str in Hrun.
  destruct (Z.eqb_spec a NULL) as [|Ha]; [by injection Hrun as <- _|].
  destruct (strlen str =? SIZE_MAX); [by injection Hrun as <- _|].
  rewrite (wrap64_small (8 + strlen str)) in Hrun by (unfold is_u64; lia).
  unfold bind at 1 in Hrun.
  rewrite (ArenaPush_live a A s Hl _ Ha) in Hrun.
  rewrite (wrap64_small (pos A + (8 + strlen str))) in Hrun
    by (unfold is_u64; lia).
  destruct (Z.eqb_spec (8 + strlen str) 0); [lia|]. simpl orb in Hrun.
  destruct (Z.gtb_spec (pos A + (8 + strlen str)) (size A)); [lia|].
  set (s1 := put_arena a _ s) in Hrun.
  set (res := wrap64 _) in Hrun.
  destruct (Z.eqb_spec res NULL); [by injection Hrun as <- _|].
  unfold bind at 1 in Hrun. unfold store_u64 in Hrun.
  destruct (store_bytes res _ s1) as [[u2 s2]|] eqn:Hhdr; [|done].
  unfold bind at 1 in Hrun. unfold memcpy in Hrun.
  destruct (store_bytes _ _ s2) as [[u3 s3]|] eqn:Hpay; [|done].
  injection Hrun as <- <-.
  assert (Hres : 0 <= res) by (apply wrap64_range).
  rewrite (wrap64_small (res + 8)) in Hpay by (unfold is_u64; lia).
  assert (Hl3 : hdr s3 !! a
                = Some (with_pos A (pos A + (8 + strlen str)))).
  { rewrite (store_bytes_hdr _ _ _ _ _ Hpay), (store_bytes_hdr _ _ _ _ _ Hhdr).
    apply put_arena_lookup. }
  split; [|split].
  - intros q Hq.
    rewrite (store_bytes_outside _ _ _ _ _ q Hpay).
    + rewrite (store_bytes_outside _ _ _ _ _ q Hhdr); [done|].
      change (List.length (le_bytes 8 (strlen str))) with 8%nat. lia.
    + rewrite length_take. lia.
  - unfold pos_of. rewrite Hl3. simpl. f_equal. lia.
  - rewrite (PopStr_pops_record a _ res (strlen str) s3 Hl3);
      [|unfold is_u64; simpl; lia|done|lia|unfold sizeof_Str; simpl; lia].
    eexists. split; [done|]. split; [|done].
    unfold pos_of. rewrite put_arena_lookup. simpl. f_equal.
    unfold sizeof_Str. lia.
Qed.

Lemma PushStr_record_witness :
  Str_size hello state_hello = Some (strlen (cstr "hello"), state_hello) /\
  Str_string hello state_hello
  = Some (take (Z.to_nat (strlen (cstr "hello"))) (cstr "hello"),
          state_hello) /\
  (forall q, q < hello \/ hello + sizeof_Str + strlen (cstr "hello") <= q ->
             data state_hello !! q = data state0 !! q) /\
  pos_of arena0 state_hello
  = Some (pos (mkArena 65560 4072 0) + sizeof_Str + strlen (cstr "hello")) /\
  exists s'',
    PopStr arena0 hello state_hello = Some (tt, s'') /\
    pos_of arena0 s'' = Some (pos (mkArena 65560 4072 0)) /\
    data s'' = data state_hello.
Proof.
  apply (PushStr_record arena0 (mkArena 65560 4072 0) (cstr "hello") state0
           hello state_hello).
  - vm_compute. reflexivity.
  - unfold is_u64. simpl. lia.
  - unfold is_u64. simpl. lia.
  - vm_compute. discriminate.
  - apply by_result. vm_compute. reflexivity.
  - unfold hello, NULL. lia.
  - vm_compute. reflexivity.
Defined.

(** ** Writing a record out *)

Lemma load_bytes_length n p s l s' :
  load_bytes p n s = Some (l, s') -> List.length l = n.
Proof.
  revert p l s'. induction n as [|n IH]; intros p l s'; simpl.
  - by intros [= <- _].
  - unfold bind, load_byte. destruct (data s !! p); [|done].
    destruct (load_bytes (p + 1) n s) as [[l1 s1]|] eqn:E; [|done].
    intros [= <- _]. simpl. by rewrite (IH _ _ _ E).
Qed.

Lemma load_bytes_take n p s l m :
  load_bytes p n s = Some (l, s) -> (m <= n)%nat ->
  load_bytes p m s = Some (take m l, s).
Proof.
  revert p n l. induction m as [|m IH]; intros p n l Hld Hm; [done|].
  destruct n as [|n]; [lia|]. simpl in Hld. unfold bind, load_byte in Hld.
  simpl. unfold bind, load_byte.
  destruct (data s !! p) as [b|]; [|done].
  destruct (load_bytes (p + 1) n s) as [[l1 s1]|] eqn:E; [|done].
  pose proof (load_bytes_state _ _ _ _ _ E) as ->.
  injection Hld as <-. by rewrite (IH _ _ _ E ltac:(lia)).
Qed.

Lemma load_bytes_drop n p s l i :
  load_bytes p n s = Some (l, s) ->
  load_bytes (p + Z.of_nat i) (n - i) s = Some (drop i l, s).
Proof.
  revert p n l. induction i as [|i IH]; intros p n l Hld.
  - by rewrite Z.add_0_r, Nat.sub_0_r, drop_0.
  - destruct n as [|n]; [by injection Hld as <-|].
    simpl in Hld. unfold bind, load_byte in Hld.
    destruct (data s !! p) as [b|]; [|done].
    destruct (load_bytes (p + 1) n s) as [[l1 s1]|] eqn:E; [|done].
    pose proof (load_bytes_state _ _ _ _ _ E) as ->.
    injection Hld as <-. simpl.
    replace (p + Z.of_nat (S i)) with (p + 1 + Z.of_nat i) by lia.
    by apply IH.
Qed.

Lemma emitted_app s evs1 evs2 :
  emitted s (evs1 ++ evs2) = emitted s evs1 ++ emitted s evs2.
Proof.
  induction evs1 as [|[fd r|fd buf c r] evs1 IH]; simpl; [done|done|].
  by rewrite IH, app_assoc.
Qed.

Section PutStr.

Variables (sk : Sink) (str : ptr) (fd : Z) (s : State).
Variables (n : Z) (payload : list Z).

Hypothesis Hstr : 0 <= str.
Hypothesis Hn : 0 <= n.
Hypothesis Hend : str + sizeof_Str + n < 2 ^ 64.
Hypothesis Hsize : load_u64 str s = Some (n, s).
Hypothesis Hpayload :
  load_bytes (str + sizeof_Str) (Z.to_nat n) s = Some (payload, s).
Hypothesis Hbounded : bounded_sink sk.

(** The bytes one call takes from the middle of the payload. *)
Lemma bytes_at_payload t w :
  0 <= t -> 0 < w -> t + w <= n ->
  bytes_at s (str + sizeof_Str + t) w
  = take (Z.to_nat w) (drop (Z.to_nat t) payload).
Proof using Hpayload.
  intros Ht Hw Htw. unfold bytes_at.
  pose proof (load_bytes_drop _ _ _ _ (Z.to_nat t) Hpayload) as Hd.
  rewrite Z2Nat.id in Hd by lia.
  by rewrite (load_bytes_take _ _ _ _ (Z.to_nat w) Hd) by lia.
Qed.

(** The loop, entered with [total = t]: it ends within [n - t + 1]
    iterations; its calls are writes to the descriptor; what they wrote is
    a prefix of the payload from [t] on, and all of it when every call
    made progress; a call that made none is the last one. *)
Lemma putstr_loop_spec fuel t evs :
  0 <= t <= n -> (Z.to_nat (n - t) < fuel)%nat ->
  exists ws,
    putstr_loop fuel sk str fd t evs s = Some (Some (evs ++ ws), s) /\
    Forall (writes_to fd) ws /\
    emitted s ws `prefix_of` drop (Z.to_nat t) payload /\
    (Forall progressed ws -> emitted s ws = drop (Z.to_nat t) payload) /\
    (progressing_sink sk -> Forall progressed ws) /\
    (forall i e, ws !! i = Some e -> (S i < List.length ws)%nat ->
                 progressed e).
Proof using Hstr Hn Hend Hsize Hpayload Hbounded.
  revert t evs. induction fuel as [|fuel IH]; intros t evs Ht Hfuel; [lia|].
  pose proof (load_bytes_length _ _ _ _ _ Hpayload) as Hlen.
  cbn [putstr_loop]. unfold bind. rewrite Hsize.
  unfold sizeof_Str in *.
  destruct (Z.ltb_spec t n) as [Hlt|Hge].
  - cbv zeta.
    rewrite (wrap64_small (str + 8 + t)) by (unfold is_u64; lia).
    rewrite (wrap64_small (n - t)) by (unfold is_u64; lia).
    set (w := sink_write sk evs s fd (str + 8 + t) (n - t)).
    pose proof (Hbounded evs s fd (str + 8 + t) (n - t) ltac:(lia)) as Hw.
    fold w in Hw.
    set (e := Write fd (str + 8 + t) (n - t) w).
    destruct (Z.leb_spec w 0) as [Hfail|Hok].
    + exists [e]. split; [done|]. split; [by repeat constructor|].
      assert (Hem : emitted s [e] = []).
      { simpl. destruct (Z.ltb_spec 0 w); [lia|done]. }
      rewrite Hem. split; [apply prefix_nil|]. split; [|split].
      * intros Hall. rewrite Forall_singleton in Hall.
        unfold e, progressed in Hall. lia.
      * intros Hprog. specialize (Hprog evs s fd (str + 8 + t) (n - t)).
        fold w in Hprog. lia.
      * intros i x _ Hi. simpl in Hi. lia.
    + rewrite (wrap64_small (t + w)) by (unfold is_u64; lia).
      destruct (IH (t + w) (evs ++ [e])) as (ws & Hrun & Hfd & Hpre & Hall
                                              & Hprog & Hlast); [lia|lia|].
      exists (e :: ws). rewrite Hrun, <- app_assoc.
      split; [done|]. split; [by constructor|].
      assert (Hem : emitted s (e :: ws)
                    = take (Z.to_nat w) (drop (Z.to_nat t) payload)
                      ++ emitted s ws).
      { simpl. destruct (Z.ltb_spec 0 w); [|lia].
        pose proof (bytes_at_payload t w) as Hb. unfold sizeof_Str in Hb.
        by rewrite Hb by lia. }
      assert (Hsplit : drop (Z.to_nat t) payload
                       = take (Z.to_nat w) (drop (Z.to_nat t) payload)
                         ++ drop (Z.to_nat (t + w)) payload).
      { rewrite <- (take_drop (Z.to_nat w) (drop (Z.to_nat t) payload))
          at 1.
        rewrite drop_drop. do 2 f_equal. lia. }
      rewrite Hem. clear Hem.
      set (chunk := take (Z.to_nat w) (drop (Z.to_nat t) payload)) in *.
      rewrite Hsplit. split; [|split; [|split]].
      * by apply prefix_app.
      * intros Hp. apply Forall_cons in Hp as [_ Hp].
        f_equal. by apply Hall.
      * intros Hp. constructor; [unfold e, progressed; lia|by apply Hprog].
      * intros [|i] x Hx Hi; simpl in Hx, Hi.
        -- injection Hx as <-. unfold e, progressed. lia.
        -- apply (Hlast i x Hx). lia.
  - assert (t = n) as -> by lia.
    exists []. rewrite app_nil_r. split; [done|]. split; [done|].
    simpl. rewrite drop_ge by lia.
    split; [done|]. split; [done|]. split; [done|].
    intros i e He. by rewrite lookup_nil in He.
Qed.

End PutStr.

(** X15: for a record whose header and payload are mapped and lie in the
    address space, a valid descriptor, and a sink that on every call takes
    at least one byte and no more than offered, [m_putstr] ends within
    [size + 1] iterations, changes no memory, and the bytes written are
    exactly the payload, in order, with no terminator.  All writes go to
    descriptor 1 when [fd] is [-1], and otherwise to the result of one
    [dup(fd)] made first. *)
Theorem m_putstr_flushes sk str fd s n payload fuel :
  0 < str -> -1 <= fd -> 0 <= n -> str + sizeof_Str + n < 2 ^ 64 ->
  Str_size str s = Some (n, s) ->
  load_bytes (str + sizeof_Str) (Z.to_nat n) s = Some (payload, s) ->
  bounded_sink sk -> progressing_sink sk -> (Z.to_nat n < fuel)%nat ->
  exists ws,
    m_putstr fuel sk str fd s
    = Some (Some ((if fd =? -1 then [] else [Dup fd (sink_dup sk fd)])
                  ++ ws), s) /\
    Forall (writes_to (if fd =? -1 then 1 else sink_dup sk fd)) ws /\
    emitted s ws = payload.
Proof.
  intros Hstr Hfd Hn Hend Hsize Hpay Hb Hprog Hfuel.
  unfold m_putstr, Str_size in *.
  destruct (Z.eqb_spec str NULL); [unfold NULL in *; lia|].
  destruct (Z.ltb_spec fd (-1)); [lia|]. simpl orb. cbv iota.
  destruct (Z.eqb_spec fd (-1)).
  - destruct (putstr_loop_spec sk str 1 s n payload ltac:(lia) Hn Hend
                Hsize Hpay Hb fuel 0 [])
      as (ws & Hrun & Hw & _ & Hall & Hp & _); [lia|lia|].
    exists ws. split; [done|]. split; [done|].
    rewrite (Hall (Hp Hprog)). by rewrite drop_0.
  - destruct (putstr_loop_spec sk str (sink_dup sk fd) s n payload
                ltac:(lia) Hn Hend Hsize Hpay Hb fuel 0
                [Dup fd (sink_dup sk fd)])
      as (ws & Hrun & Hw & _ & Hall & Hp & _); [lia|lia|].
    exists ws. split; [done|]. split; [done|].
    rewrite (Hall (Hp Hprog)). by rewrite drop_0.
Qed.

Lemma m_putstr_flushes_witness :
  exists ws,
    m_putstr 6 sink3 hello 4 state_hello
    = Some (Some ((if 4 =? -1 then [] else [Dup 4 (sink_dup sink3 4)])
                  ++ ws), state_hello) /\
    Forall (writes_to (if 4 =? -1 then 1 else sink_dup sink3 4)) ws /\
    emitted state_hello ws = cstr "hello".
Proof.
  apply (m_putstr_flushes sink3 hello 4 state_hello 5 (cstr "hello") 6).
  - unfold hello. lia.
  - lia.
  - lia.
  - unfold hello, sizeof_Str. lia.
  - apply load_u64_by_result. vm_compute. reflexivity.
  - apply load_bytes_by_result. vm_compute. reflexivity.
  - intros evs s fd buf count Hc. simpl. lia.
  - intros evs s fd buf count Hc. simpl. lia.
  - simpl. lia.
Defined.

(** X16: with a sink that never reports more bytes than offered but may
    fail, [m_putstr] still ends within [size + 1] iterations and changes no
    memory.  What was written is a prefix of the payload; every call but
    the last took at least one byte, so the first call with a result of 0
    or less ends the loop; and when every call took a byte, the whole
    payload was written.  Nothing tells the caller which case occurred. *)
Theorem m_putstr_stops_at_failure sk str fd s n payload fuel :
  0 < str -> -1 <= fd -> 0 <= n -> str + sizeof_Str + n < 2 ^ 64 ->
  Str_size str s = Some (n, s) ->
  load_bytes (str + sizeof_Str) (Z.to_nat n) s = Some (payload, s) ->
  bounded_sink sk -> (Z.to_nat n < fuel)%nat ->
  exists ws,
    m_putstr fuel sk str fd s
    = Some (Some ((if fd =? -1 then [] else [Dup fd (sink_dup sk fd)])
                  ++ ws), s) /\
    Forall (writes_to (if fd =? -1 then 1 else sink_dup sk fd)) ws /\
    emitted s ws `prefix_of` payload /\
    (forall i e, ws !! i = Some e -> (S i < List.length ws)%nat ->
                 progressed e) /\
    (Forall progressed ws -> emitted s ws = payload).
Proof.
  intros Hstr Hfd Hn Hend Hsize Hpay Hb Hfuel.
  unfold m_putstr, Str_size in *.
  destruct (Z.eqb_spec str NULL); [unfold NULL in *; lia|].
  destruct (Z.ltb_spec fd (-1)); [lia|]. simpl orb. cbv iota.
  destruct (Z.eqb_spec fd (-1)).
  - destruct (putstr_loop_spec sk str 1 s n payload ltac:(lia) Hn Hend
                Hsize Hpay Hb fuel 0 [])
      as (ws & Hrun & Hw & Hpre & Hall & _ & Hlast); [lia|lia|].
    rewrite drop_0 in Hpre, Hall. by exists ws.
  - destruct (putstr_loop_spec sk str (sink_dup sk fd) s n payload
                ltac:(lia) Hn Hend Hsize Hpay Hb fuel 0
                [Dup fd (sink_dup sk fd)])
      as (ws & Hrun & Hw & Hpre & Hall & _ & Hlast); [lia|lia|].
    rewrite drop_0 in Hpre, Hall. by exists ws.
Qed.

Lemma m_putstr_stops_at_failure_witness :
  exists ws,
    m_putstr 6 sink_fails hello (-1) state_hello
    = Some (Some ((if -1 =? -1 then []
                   else [Dup (-1) (sink_dup sink_fails (-1))]) ++ ws),
            state_hello) /\
    Forall (writes_to (if -1 =? -1 then 1 else sink_dup sink_fails (-1)))
           ws /\
    emitted state_hello ws `prefix_of` cstr "hello" /\
    (forall i e, ws !! i = Some e -> (S i < List.length ws)%nat ->
                 progressed e) /\
    (Forall progressed ws -> emitted state_hello ws = cstr "hello").
Proof.
  apply (m_putstr_stops_at_failure sink_fails hello (-1) state_hello 5
           (cstr "hello") 6).
  - unfold hello. lia.
  - lia.
  - lia.
  - unfold hello, sizeof_Str. lia.
  - apply load_u64_by_result. vm_compute. reflexivity.
  - apply load_bytes_by_result. vm_compute. reflexivity.
  - intros evs s fd buf count Hc. simpl. destruct evs; lia.
  - simpl. lia.
Defined.

(** On one arena, where no write reaches a header, the two ways of keeping
    the header agree: the same addresses and positions come out. *)
Example Flat_agrees_on_one_arena :
  result ((let* a := Flat.ArenaAlloc os4k 64 in
           let* p := Flat.ArenaPush a 10 in
           let* q := Flat.ArenaPushZeroInit a 20 in
           let* n := Flat.ArenaGetPos a in
           let* c := Flat.ArenaGetSize a in
           ret (a, p, q, n, c)) empty_state)
  = result ((let* a := ArenaAlloc os4k 64 in
             let* p := ArenaPush a 10 in
             let* q := ArenaPushZeroInit a 20 in
             let* n := ArenaGetPos a in
             let* c := ArenaGetSize a in
             ret (a, p, q, n, c)) empty_state).
Proof. vm_compute. reflexivity. Qed.
